(** * vite-plugin-terminal-mcp: the log relay and its bounded store

    A shallow embedding of [src/logStore.ts] (class [LogStore]), of the
    tool handlers registered in [src/mcp-server.ts] ([createMCPServer]) and
    of the [/__terminal] middleware of the plugin ([configureServer]),
    followed by the properties of the relay that are checked against them.

    Conventions of the embedding.
    - A JavaScript [number] is modelled by [jsnum]: [NaN], an infinity, or
      an integer-valued double, kept as the integer it is.  A number read
      from a text is rounded to the nearest double ([to_double]).  Fractions
      are outside the model.
    - The engine's bound on the length of a string is a parameter,
      [kMaxLength], a natural number: building a longer string raises a
      [RangeError].
    - A JavaScript string is a [string] of code units below 256.
    - An object with mutable fields (the store) is a record threaded through
      the operations that mutate it. *)

From Stdlib Require Import Ascii String ZArith Lia.
From stdpp Require Import base list strings gmap.

Local Open Scope Z_scope.

(** ** JavaScript numbers *)

Inductive jsnum : Type :=
  | JNaN
  | JInt (z : Z)
  | JInf (negative : bool).

#[global] Instance jsnum_eq_dec : EqDecision jsnum.
Proof. solve_decision. Defined.

(** [a >= b] on numbers: any comparison with [NaN] is [false]. *)
Definition js_ge (a b : jsnum) : bool :=
  match a, b with
  | JInt x, JInt y => y <=? x
  | JInf na, JInf nb => negb na || nb
  | JInf na, JInt _ => negb na
  | JInt _, JInf nb => nb
  | _, _ => false
  end.

(** The double nearest to an integer, ties to the even significand: the
    integer itself below 2^53, and an infinity from 2^1024 on. *)
Definition to_double (z : Z) : jsnum :=
  let a := Z.abs z in
  if a <? 2 ^ 53 then JInt z
  else
    let shift := Z.log2 a - 52 in
    let q := Z.shiftr a shift in
    let r := a - Z.shiftl q shift in
    let half := 2 ^ (shift - 1) in
    let q' := if (half <? r) || ((r =? half) && Z.odd q) then q + 1 else q in
    let m := Z.shiftl q' shift in
    if 2 ^ 1024 <=? m then JInf (z <? 0) else JInt (Z.sgn z * m).

Definition js_le (a b : jsnum) : bool := js_ge b a.

(** ** [src/logStore.ts] *)

(** The union type of [StoredLog.method]. *)
Inductive Level : Type := log | info | debug | warn | error | assert.

#[global] Instance Level_eq_dec : EqDecision Level.
Proof. solve_decision. Defined.

Record StoredLog : Type := mkStoredLog {
  method : Level;
  message : string;
  timestamp : jsnum;
  count : jsnum;
  groupLevel : jsnum;
}.

#[global] Instance StoredLog_eq_dec : EqDecision StoredLog.
Proof. solve_decision. Defined.

(** [Array.prototype.slice(start)] with the end omitted: a negative start
    counts from the end of the array, and the resulting index is clamped to
    [0 .. length]. *)
Definition slice {A : Type} (start : Z) (l : list A) : list A :=
  let len := Z.of_nat (length l) in
  let k := if start <? 0 then Z.max (len + start) 0 else Z.min start len in
  drop (Z.to_nat k) l.

Module LogStore.

Record t : Type := mk {
  logs : list StoredLog;
  maxSize : Z;
}.

(** [constructor(maxSize = 1000)]: an absent argument takes the default. *)
Definition new (maxSize : option Z) : t :=
  mk [] (default 1000 maxSize).

Definition size (s : t) : Z := Z.of_nat (length (logs s)).

(** [add]: push, then shift once when the length exceeds [maxSize]. *)
Definition add (log : StoredLog) (s : t) : t :=
  let pushed := logs s ++ [log] in
  if Z.of_nat (length pushed) >? maxSize s
  then mk (tail pushed) (maxSize s)
  else mk pushed (maxSize s).

Definition getAll (s : t) : list StoredLog := logs s.

Definition getByLevel (level : Level) (s : t) : list StoredLog :=
  filter (λ log, method log = level) (logs s).

Definition getErrors (s : t) : list StoredLog :=
  filter (λ log, method log = error ∨ method log = assert) (logs s).

Definition getRecent (count : Z) (s : t) : list StoredLog :=
  slice (- count) (logs s).

Definition getRecentErrors (count : Z) (s : t) : list StoredLog :=
  slice (- count) (getErrors s).

Definition getSince (timestamp_ : jsnum) (s : t) : list StoredLog :=
  filter (λ log, js_ge (timestamp log) timestamp_ = true) (logs s).

Definition clear (s : t) : t := mk [] (maxSize s).

(** The store after a sequence of [add] calls, first call first. *)
Definition addAll (evs : list StoredLog) (s : t) : t :=
  foldl (λ st ev, add ev st) s evs.

End LogStore.

(** ** [src/mcp-server.ts]: the tool handlers of [createMCPServer] *)

(** A JSON value of the kinds a tool argument can take. *)
Inductive jsarg : Type :=
  | ANull
  | ABool (b : bool)
  | ANum (n : Z)
  | AStr (s : string).

(** Property lookup on an object given as its list of entries; [None] is
    [undefined].  The first entry of a key wins, as for
    [URLSearchParams.get]. *)
Fixpoint get {V : Type} (name : string) (entries : list (string * V)) : option V :=
  match entries with
  | [] => None
  | (k, v) :: rest => if String.eqb k name then Some v else get name rest
  end.

Module Stats.
Record t : Type := mk {
  total : Z;
  errors : Z;
  warnings : Z;
  info : Z;
  debug : Z;
  log : Z;
  oldestTimestamp : option jsnum;
  newestTimestamp : option jsnum;
}.
End Stats.

Module MCP.

(** The level argument of the query tools: a level or ['all']. *)
Inductive LevelFilter : Type :=
  | LAll
  | LOnly (l : Level).

(** [z.enum(['log', 'info', 'debug', 'warn', 'error', 'assert', 'all'])] *)
Definition level_enum : list (string * LevelFilter) :=
  [ ("log", LOnly log); ("info", LOnly info); ("debug", LOnly debug);
    ("warn", LOnly warn); ("error", LOnly error); ("assert", LOnly assert);
    ("all", LAll) ]%string.

Definition parse_level (s : string) : option LevelFilter := get s level_enum.

Record LogsOutput : Type := mkLogsOutput {
  out_logs : list StoredLog;
  out_count : Z;
  out_level : LevelFilter;
}.

(** Callback of [get-console-logs]. *)
Definition get_console_logs (count : option Z) (level : option LevelFilter)
    (logStore : LogStore.t) : LogsOutput :=
  let finalCount := default 50 count in
  let finalLevel := default LAll level in
  let logs :=
    match finalLevel with
    | LAll => LogStore.getRecent finalCount logStore
    | LOnly l => slice (- finalCount) (LogStore.getByLevel l logStore)
    end in
  mkLogsOutput logs (Z.of_nat (length logs)) finalLevel.

(** The input schema of [get-console-logs]:
    [{ count: z.number(), level: z.enum([...]) }]. *)
Definition parse_get_console_logs (args : list (string * jsarg))
    : option (Z * LevelFilter) :=
  match get "count" args, get "level" args with
  | Some (ANum c), Some (AStr l) =>
      match parse_level l with
      | Some f => Some (c, f)
      | None => None
      end
  | _, _ => None
  end.

(** The outcome of a [tools/call] request: the arguments do not parse, the
    callback raises, or it answers. *)
Inductive CallResult (A : Type) : Type :=
  | InvalidParams
  | Raised
  | Result (output : A).
Arguments InvalidParams {A}.
Arguments Raised {A}.
Arguments Result {A} output.

Record ClearOutput : Type := mkClearOutput {
  cleared : Z;
  success : bool;
}.

(** Callback of [clear-console-logs]. *)
Definition clear_console_logs (logStore : LogStore.t) : ClearOutput * LogStore.t :=
  let previousSize := LogStore.size logStore in
  let logStore' := LogStore.clear logStore in
  (mkClearOutput previousSize true, logStore').

(** Callback of [get-console-stats]. *)
Definition get_console_stats (logStore : LogStore.t) : Stats.t :=
  let all := LogStore.getAll logStore in
  let errors := LogStore.getErrors logStore in
  let warnings := LogStore.getByLevel warn logStore in
  let info_ := LogStore.getByLevel info logStore in
  let debug_ := LogStore.getByLevel debug logStore in
  let regular := LogStore.getByLevel log logStore in
  let len (l : list StoredLog) := Z.of_nat (length l) in
  {| Stats.total := len all;
     Stats.errors := len errors;
     Stats.warnings := len warnings;
     Stats.info := len info_;
     Stats.debug := len debug_;
     Stats.log := len regular;
     Stats.oldestTimestamp :=
       if len all >? 0 then timestamp <$> all !! 0%nat else None;
     Stats.newestTimestamp :=
       if len all >? 0 then timestamp <$> all !! Z.to_nat (len all - 1) else None |}.

End MCP.

(** ** The plugin: strings and numbers of the [/__terminal] middleware *)

Definition newline : ascii := "010"%char.

(** [String.prototype.split] with a separator of one character. *)
Fixpoint split (sep : ascii) (s : string) : list string :=
  match s with
  | EmptyString => [EmptyString]
  | String c r =>
      if Ascii.eqb c sep then EmptyString :: split sep r
      else match split sep r with
           | h :: t => String c h :: t
           | [] => [String c EmptyString]
           end
  end.

(** [Array.prototype.join] on an array of strings. *)
Fixpoint join (sep : string) (parts : list string) : string :=
  match parts with
  | [] => EmptyString
  | p :: rest =>
      match rest with
      | [] => p
      | _ :: _ => p +:+ sep +:+ join sep rest
      end
  end.

Fixpoint repeat_string (s : string) (n : nat) : string :=
  match n with
  | O => EmptyString
  | S n' => s +:+ repeat_string s n'
  end.

(** A string that the code has just built (by a template literal, [join]
    or [repeat]): one longer than the engine allows raises a [RangeError],
    here [None]. *)
Definition built (kMaxLength : N) (s : string) : option string :=
  if Z.of_nat (String.length s) <=? Z.of_N kMaxLength then Some s else None.

(** [String.prototype.repeat]: [NaN] counts as 0; a negative or infinite
    count raises a [RangeError], here [None], and so does a result longer
    than the engine allows. *)
Definition js_repeat (kMaxLength : N) (s : string) (count_ : jsnum)
    : option string :=
  match count_ with
  | JNaN => Some EmptyString
  | JInt n =>
      if n <? 0 then None
      else if Z.of_nat (String.length s) * n <=? Z.of_N kMaxLength
           then Some (repeat_string s (Z.to_nat n))
           else None
  | JInf _ => None
  end.

(** [groupText(text, groupLevel)]: the pad, the separator made of a newline
    and the pad, the joined lines and the whole are built in this order. *)
Definition groupText (kMaxLength : N) (text : string) (groupLevel_ : jsnum)
    : option string :=
  if decide (groupLevel_ = JInt 0) then Some text
  else
    match js_repeat kMaxLength "  " groupLevel_ with
    | None => None
    | Some pad =>
        match built kMaxLength (String newline pad) with
        | None => None
        | Some sep =>
            match built kMaxLength (join sep (split newline text)) with
            | None => None
            | Some joined => built kMaxLength (pad +:+ joined)
            end
        end
    end.

(** White space and line terminators that [parseInt] skips, among the code
    units below 256. *)
Definition is_white_space (c : ascii) : bool :=
  bool_decide (N_of_ascii c ∈ [9; 10; 11; 12; 13; 32; 160]%N).

Fixpoint trimStart (s : string) : string :=
  match s with
  | String c r => if is_white_space c then trimStart r else s
  | EmptyString => EmptyString
  end.

(** The value of a code unit as a digit: [0-9], [a-z] and [A-Z]. *)
Definition digit_value (c : ascii) : option Z :=
  let n := Z.of_N (N_of_ascii c) in
  if (48 <=? n) && (n <=? 57) then Some (n - 48)
  else if (97 <=? n) && (n <=? 122) then Some (n - 87)
  else if (65 <=? n) && (n <=? 90) then Some (n - 55)
  else None.

(** The digits of the longest prefix of [s] made of radix-[R] digits. *)
Fixpoint radix_digits (R : Z) (s : string) : list Z :=
  match s with
  | EmptyString => []
  | String c r =>
      match digit_value c with
      | Some d => if d <? R then d :: radix_digits R r else []
      | None => []
      end
  end.

Definition math_int (R : Z) (ds : list Z) : Z :=
  foldl (λ acc d, acc * R + d) 0 ds.

(** The sign read by [parseInt] and the text after it. *)
Definition strip_sign (s : string) : Z * string :=
  match s with
  | String c r =>
      if Ascii.eqb c "-" then (-1, r)
      else if Ascii.eqb c "+" then (1, r)
      else (1, s)
  | EmptyString => (1, s)
  end.

(** The radix chosen by [parseInt] when none is given, and the text after
    the prefix [0x] or [0X] if there is one. *)
Definition strip_prefix (s : string) : Z * string :=
  match s with
  | String c0 (String c1 r) =>
      if Ascii.eqb c0 "0" && (Ascii.eqb c1 "x" || Ascii.eqb c1 "X")
      then (16, r)
      else (10, s)
  | _ => (10, s)
  end.

(** [Number.parseInt(string)], the radix left undefined: skip leading white
    space, read a sign, take radix 16 after a [0x] or [0X] prefix and radix 10
    otherwise, and read the longest prefix of digits; [NaN] when that prefix
    is empty, and otherwise the double nearest to the integer read. *)
Definition parseInt (input : string) : jsnum :=
  let '(sign, S1) := strip_sign (trimStart input) in
  let '(R, S2) := strip_prefix S1 in
  match radix_digits R S2 with
  | [] => JNaN
  | ds => to_double (sign * math_int R ds)
  end.

(** Vocabulary for the statements about decoding. *)

Definition is_decimal_digit (c : ascii) : bool :=
  let n := Z.of_N (N_of_ascii c) in (48 <=? n) && (n <=? 57).

(** The decimal numeral of a list of digits, as a producer writes
    [Date.now()], its counter and its group level into the URL. *)
Fixpoint decimal (ds : list Z) : string :=
  match ds with
  | [] => EmptyString
  | d :: rest => String (ascii_of_N (Z.to_N (48 + d))) (decimal rest)
  end.

(** A text with no digit after its leading white space and sign. *)
Definition no_leading_digit (v : string) : bool :=
  match snd (strip_sign (trimStart v)) with
  | EmptyString => true
  | String c _ => negb (is_decimal_digit c)
  end.

Fixpoint contains (c : ascii) (s : string) : bool :=
  match s with
  | EmptyString => false
  | String c' r => Ascii.eqb c' c || contains c r
  end.

(** The rewriting of the message said in one pass over its characters:
    every newline becomes a newline followed by two spaces. *)
Fixpoint indent_newlines (s : string) : string :=
  match s with
  | EmptyString => EmptyString
  | String c r =>
      if Ascii.eqb c newline
      then String newline (String " " (String " " (indent_newlines r)))
      else String c (indent_newlines r)
  end.

(** ** The plugin: [configureServer] *)

Inductive Method : Type :=
  | MLevel (l : Level)
  | table
  | clear.

(** [const methods = ['assert', 'debug', 'error', 'info', 'log', 'table',
    'warn', 'clear']] *)
Definition methods : list (string * Method) :=
  [ ("assert", MLevel assert); ("debug", MLevel debug); ("error", MLevel error);
    ("info", MLevel info); ("log", MLevel log); ("table", table);
    ("warn", MLevel warn); ("clear", clear) ]%string.

(** The [mcp] option of the plugin: absent, a boolean or an object. *)
Record McpConfig : Type := mkMcpConfig {
  maxLogs : option Z;
  levels : option (list Level);
  silent : option bool;
}.

Inductive McpOption : Type :=
  | McpUndefined
  | McpBool (b : bool)
  | McpObject (c : McpConfig).

(** What the middleware closes over. [logStore] is [null] unless MCP is
    enabled. *)
Record Relay : Type := mkRelay {
  logStore : option LogStore.t;
  mcpLevels : list Level;
  mcpSilent : bool;
}.

(** The set-up part of [configureServer].  [imported] tells whether the
    dynamic imports of [./logStore] and [./mcp-server] succeed: they are in
    a [try] whose [catch] leaves [logStore] as it was, [null], when the
    optional MCP dependencies are not installed. *)
Definition configureServer (imported : bool) (mcp : McpOption) : Relay :=
  let mcpEnabled :=
    match mcp with
    | McpUndefined => false
    | McpBool b => b
    | McpObject _ => true
    end in
  let mcpConfig :=
    match mcp with
    | McpObject c => c
    | _ => mkMcpConfig None None None
    end in
  {| logStore :=
       if mcpEnabled && imported
       then Some (LogStore.new (maxLogs mcpConfig)) else None;
     mcpLevels := default [error; warn; info; log; debug; assert] (levels mcpConfig);
     mcpSilent := default false (silent mcpConfig) |}.

(** A request as the middleware sees it: the [pathname] that [parseURL]
    returns for [req.url], and the entries of the [URLSearchParams] made of
    its [search], in order. *)
Record Request : Type := mkRequest {
  pathname : string;
  searchParams : list (string * string);
}.

Definition decodeMessage (params : list (string * string)) : string :=
  join (String newline "  ") (split newline (default EmptyString (get "m" params))).

Definition decodeNumber (name : string) (params : list (string * string)) : jsnum :=
  parseInt (default "0"%string (get name params)).

(** The outcome of one request: an exception raised while the request is
    decoded or the live output prepared, or the response ended, with the
    relay afterwards, the argument of the call of [logStore.add] if there
    was one, and the [time] and [count] handed to [dispatchLog] if it was
    called. *)
Inductive Outcome : Type :=
  | Threw
  | Ended (relay' : Relay) (added : option StoredLog)
          (dispatched : option (jsnum * jsnum)).

Section middleware.

(** Whether [JSON.parse] accepts a text (the [table] method parses its
    message). *)
Variable JSON_parse_ok : string → bool.

(** The engine's bound on the length of a string. *)
Variable kMaxLength : N.

Definition handle (relay : Relay) (req : Request) : Outcome :=
  match built kMaxLength (decodeMessage (searchParams req)) with
  | None => Threw
  | Some message_ =>
  let time := decodeNumber "t" (searchParams req) in
  let count_ := decodeNumber "c" (searchParams req) in
  let groupLevel_ := decodeNumber "g" (searchParams req) in
  match pathname req with
  | String c name =>
      if Ascii.eqb c "/" then
        match get name methods with
        | Some method_ =>
            let prepared :=
              match method_ with
              | clear => true
              | table => JSON_parse_ok message_
              | MLevel _ =>
                  bool_decide (is_Some (groupText kMaxLength message_ groupLevel_))
              end in
            if negb prepared then Threw
            else
              let logMethod :=
                match method_ with
                | MLevel assert => MLevel error
                | _ => method_
                end in
              let toStore :=
                match logStore relay, logMethod with
                | Some _, MLevel l =>
                    if bool_decide (l ∈ mcpLevels relay)
                    then Some (mkStoredLog l message_ time count_ groupLevel_)
                    else None
                | _, _ => None
                end in
              let relay' :=
                match toStore with
                | Some ev =>
                    mkRelay (LogStore.add ev <$> logStore relay)
                            (mcpLevels relay) (mcpSilent relay)
                | None => relay
                end in
              let shouldStoreInMCP := bool_decide (is_Some toStore) in
              Ended relay' toStore
                (if negb (mcpSilent relay) || negb shouldStoreInMCP
                 then Some (time, count_) else None)
        | None => Ended relay None None
        end
      else Ended relay None None
  | EmptyString => Ended relay None None
  end
  end.

(** The relay after a sequence of requests; a request that raises leaves
    it as it was. *)
Definition serve (reqs : list Request) (relay : Relay) : Relay :=
  foldl (λ r req, match handle r req with
                  | Threw => r
                  | Ended r' _ _ => r'
                  end) relay reqs.

End middleware.

(** ** The store under any use *)

(** The two mutating operations of [LogStore]. *)
Inductive StoreOp : Type :=
  | OpAdd (ev : StoredLog)
  | OpClear.

Definition runOp (s : LogStore.t) (op : StoreOp) : LogStore.t :=
  match op with
  | OpAdd ev => LogStore.add ev s
  | OpClear => LogStore.clear s
  end.

Definition runOps (ops : list StoreOp) (s : LogStore.t) : LogStore.t :=
  foldl runOp s ops.

(** The events added after the last [clear] of a history, oldest first;
    [acc] holds those seen so far. *)
Fixpoint sinceClear (ops : list StoreOp) (acc : list StoredLog) : list StoredLog :=
  match ops with
  | [] => acc
  | OpAdd ev :: rest => sinceClear rest (acc ++ [ev])
  | OpClear :: rest => sinceClear rest []
  end.

(** ** [src/mcp-server.ts]: the rendering of the answers *)

(** The decimal digits of [n >= 0], most significant first; [fuel] bounds
    the number of divisions. *)
Fixpoint digits_fuel (fuel : nat) (n : Z) (acc : list Z) : list Z :=
  match fuel with
  | O => n :: acc
  | S fuel' =>
      if n <? 10 then n :: acc
      else digits_fuel fuel' (n / 10) (n mod 10 :: acc)
  end.

Definition digits (n : Z) : list Z :=
  digits_fuel (Z.to_nat (Z.log2 n)) n [].

(** A number in a template literal, for a safe integer (of magnitude up
    to 2^53, which JavaScript prints digit by digit). *)
Definition Number_toString (n : Z) : string :=
  if n <? 0 then String "-" (decimal (digits (- n))) else decimal (digits n).

(** The largest magnitude of the time value of a [Date]. *)
Definition maxTime : Z := 8640000000000000.

(** Whether [new Date(value)] is a valid date. *)
Definition valid_time (value : jsnum) : bool :=
  match value with
  | JNaN => false
  | JInt z => Z.abs z <=? maxTime
  | JInf _ => false
  end.

(** The names of the levels, and [toUpperCase] on the letters below 128
    (it is applied to these names only). *)
Definition level_name (l : Level) : string :=
  match l with
  | log => "log"
  | info => "info"
  | debug => "debug"
  | warn => "warn"
  | error => "error"
  | assert => "assert"
  end.

Definition upper_char (c : ascii) : ascii :=
  let n := N_of_ascii c in
  if ((97 <=? n) && (n <=? 122))%N then ascii_of_N (n - 32) else c.

Fixpoint toUpperCase (s : string) : string :=
  match s with
  | EmptyString => EmptyString
  | String c r => String (upper_char c) (toUpperCase r)
  end.

Record ToolResult (A : Type) : Type := mkToolResult {
  content_text : string;
  structuredContent : A;
}.
Arguments mkToolResult {A} content_text structuredContent.
Arguments content_text {A} _.
Arguments structuredContent {A} _.

Record ErrorsOutput : Type := mkErrorsOutput {
  out_errors : list StoredLog;
  out_errors_count : Z;
}.

Record SinceOutput : Type := mkSinceOutput {
  since_logs : list StoredLog;
  since_count : Z;
  since_since : string;
  since_level : MCP.LevelFilter;
}.

Section rendering.

(** The text of [toISOString()] for a valid time value. *)
Variable isoString : Z → string.

(** The engine's bound on the length of a string. *)
Variable kMaxLength : N.

(** [new Date(value).toISOString()]; [None] is the [RangeError] of an
    invalid date. *)
Definition Date_toISOString (value : jsnum) : option string :=
  match value with
  | JNaN => None
  | JInt z => if Z.abs z <=? maxTime then Some (isoString z) else None
  | JInf _ => None
  end.

(** One line of [formatLogs]:
    [[${date}] [${log.method.toUpperCase()}] ${indent}${log.message}]. *)
Definition formatLine (log_ : StoredLog) : option string :=
  match Date_toISOString (timestamp log_) with
  | None => None
  | Some date =>
      match js_repeat kMaxLength "  " (groupLevel log_) with
      | None => None
      | Some indent =>
          built kMaxLength
            ("[" +:+ date +:+ "] [" +:+ toUpperCase (level_name (method log_))
             +:+ "] " +:+ indent +:+ message log_)
      end
  end.

(** [formatLogs(logs, title)]; [None] when a line, the joined lines or the
    whole text raises. *)
Definition formatLogs (logs : list StoredLog) (title : string) : option string :=
  if decide (length logs = 0%nat)
  then built kMaxLength (title +:+ ": No logs found.")
  else
    match mapM formatLine logs with
    | None => None
    | Some lines =>
        match built kMaxLength (join (String newline EmptyString) lines) with
        | None => None
        | Some formatted =>
            built kMaxLength
              (title +:+ " (" +:+ Number_toString (Z.of_nat (length logs))
               +:+ " entries):" +:+ String newline (String newline EmptyString)
               +:+ formatted)
        end
    end.

(** The whole callback of [get-console-errors]. *)
Definition get_console_errors (count_ : option Z) (logStore : LogStore.t)
    : option (ToolResult ErrorsOutput) :=
  let errors := LogStore.getRecentErrors (default 10 count_) logStore in
  let output := mkErrorsOutput errors (Z.of_nat (length errors)) in
  match formatLogs errors "Recent Console Errors" with
  | None => None
  | Some text => Some (mkToolResult text output)
  end.

(** The whole callback of [get-console-logs]: the output of
    [MCP.get_console_logs] and its rendering. *)
Definition get_console_logs_tool (count_ : option Z)
    (level : option MCP.LevelFilter) (logStore : LogStore.t)
    : option (ToolResult MCP.LogsOutput) :=
  let output := MCP.get_console_logs count_ level logStore in
  let title :=
    "Recent Console Logs" +:+
    match MCP.out_level output with
    | MCP.LAll => EmptyString
    | MCP.LOnly l => " (" +:+ level_name l +:+ ")"
    end in
  match formatLogs (MCP.out_logs output) title with
  | None => None
  | Some text => Some (mkToolResult text output)
  end.

(** The callback of [get-console-logs-since]. *)
Definition get_console_logs_since (timestamp_ : Z)
    (level : option MCP.LevelFilter) (logStore : LogStore.t)
    : option (ToolResult SinceOutput) :=
  let finalLevel := default MCP.LAll level in
  let logs := LogStore.getSince (JInt timestamp_) logStore in
  let logs :=
    match finalLevel with
    | MCP.LAll => logs
    | MCP.LOnly l => filter (λ log_, method log_ = l) logs
    end in
  match Date_toISOString (JInt timestamp_) with
  | None => None
  | Some since =>
      let output := mkSinceOutput logs (Z.of_nat (length logs)) since finalLevel in
      match formatLogs logs ("Console Logs Since " +:+ since) with
      | None => None
      | Some text => Some (mkToolResult text output)
      end
  end.

(** A [tools/call] request for [get-console-logs]: the server parses the
    arguments against the registered input schema and runs the callback
    only when they parse; the callback answers or raises.  The store is
    returned next to the outcome. *)
Definition call_get_console_logs (args : list (string * jsarg))
    (logStore : LogStore.t)
    : MCP.CallResult (ToolResult MCP.LogsOutput) * LogStore.t :=
  match MCP.parse_get_console_logs args with
  | None => (MCP.InvalidParams, logStore)
  | Some (c, f) =>
      match get_console_logs_tool (Some c) (Some f) logStore with
      | None => (MCP.Raised, logStore)
      | Some r => (MCP.Result r, logStore)
      end
  end.

End rendering.

(** ** The plugin: the terminal object of [createTerminal] *)

(** What [send] puts into the URL of its request: the method, [Date.now()],
    the counter, the group level and, unless the message is empty or
    absent, the message (before [encodeURI]). *)
Record Sent : Type := mkSent {
  sent_type : string;
  sent_t : Z;
  sent_c : Z;
  sent_g : Z;
  sent_m : option string;
}.

(** The calls of the terminal that reach [send] or its state.  The text of
    a call is what [stringifyObjs] or [prettyPrint] made of its arguments.
    ([time], [timeLog] and [timeEnd] read the performance clock and are left
    out; [trace], [profile] and [profileEnd] go to the console.) *)
Inductive Call : Type :=
  | CLog (text : string)
  | CInfo (text : string)
  | CDebug (text : string)
  | CWarn (text : string)
  | CError (text : string)
  | CAssert (assertion : bool) (text : string)
  | CTable (text : string)
  | CGroup
  | CGroupCollapsed
  | CGroupEnd
  | CCount (label : option string)
  | CCountReset (label : option string)
  | CClear
  | CDir (text : string)
  | CDirxml (text : string).

Module Terminal.

(** The variables [count], [groupLevel] and [counters] of the closure. *)
Record t : Type := mk {
  count : Z;
  groupLevel : Z;
  counters : gmap string Z;
}.

Definition init : t := mk 0 0 ∅.

(** [send(type, message)] at the time [now]. *)
Definition send (now : Z) (type : string) (message : option string) (st : t)
    : t * list Sent :=
  let encodedMessage :=
    match message with
    | Some m => if decide (m = EmptyString) then None else Some m
    | None => None
    end in
  (mk (count st + 1) (groupLevel st) (counters st),
   [mkSent type now (count st) (groupLevel st) encodedMessage]).

(** [label || 'default'] *)
Definition label_or_default (label : option string) : string :=
  match label with
  | Some l => if decide (l = EmptyString) then "default" else l
  | None => "default"
  end.

(** One call of a method of the terminal at the time [now]. *)
Definition call (now : Z) (c : Call) (st : t) : t * list Sent :=
  match c with
  | CLog text => send now "log" (Some text) st
  | CInfo text => send now "info" (Some text) st
  | CDebug text => send now "debug" (Some text) st
  | CWarn text => send now "warn" (Some text) st
  | CError text => send now "error" (Some text) st
  | CAssert assertion text =>
      if assertion then (st, [])
      else send now "assert" (Some ("Assertion failed: " +:+ text)) st
  | CTable text => send now "table" (Some text) st
  | CGroup | CGroupCollapsed => (mk (count st) (groupLevel st + 1) (counters st), [])
  | CGroupEnd =>
      if decide (groupLevel st = 0) then (st, [])
      else (mk (count st) (groupLevel st - 1) (counters st), [])
  | CCount label =>
      let l := label_or_default label in
      let n := default 0 (counters st !! l) + 1 in
      send now "log" (Some (l +:+ ": " +:+ Number_toString n))
        (mk (count st) (groupLevel st) (<[l := n]> (counters st)))
  | CCountReset label =>
      let l := label_or_default label in
      send now "log" (Some (l +:+ ": 0"))
        (mk (count st) (groupLevel st) (<[l := 0]> (counters st)))
  | CClear => send now "clear" None st
  | CDir text => send now "log" (Some text) st
  | CDirxml text => send now "log" (Some text) st
  end.

(** A run of calls, each with the time at which it is made; the requests
    are collected in the order in which they are sent. *)
Fixpoint run (calls : list (Z * Call)) (st : t) : t * list Sent :=
  match calls with
  | [] => (st, [])
  | (now, c) :: rest =>
      let '(st1, sent1) := call now c st in
      let '(st2, sent2) := run rest st1 in
      (st2, sent1 ++ sent2)
  end.

End Terminal.

(** The request that reaches the middleware for a [Sent]: the path after
    the mount point and the parameters [t], [c] and [g], followed by
    [rest], whatever the message part of the URL decodes to. *)
Definition request_of (sent : Sent) (rest : list (string * string)) : Request :=
  mkRequest ("/" +:+ sent_type sent)
    ([("t"%string, Number_toString (sent_t sent));
      ("c"%string, Number_toString (sent_c sent));
      ("g"%string, Number_toString (sent_g sent))] ++ rest).

(** ** The plugin: where the terminal object writes *)

Inductive OutputType : Type := OutTerminal | OutConsole.

#[global] Instance OutputType_eq_dec : EqDecision OutputType.
Proof. solve_decision. Defined.

(** The [output] option: absent, one output or an array of outputs. *)
Inductive LogsOutput : Type :=
  | OutputUndefined
  | OutputOne (o : OutputType)
  | OutputArray (os : list OutputType).

(** The two flags computed by [generateVirtualModuleCode]. *)
Definition outputToTerminal (output : LogsOutput) : bool :=
  match output with
  | OutputUndefined => true
  | OutputOne o => bool_decide (o = OutTerminal)
  | OutputArray os => bool_decide (OutTerminal ∈ os)
  end.

Definition outputToConsole (output : LogsOutput) : bool :=
  match output with
  | OutputUndefined => false
  | OutputOne o => bool_decide (o = OutConsole)
  | OutputArray os => bool_decide (OutConsole ∈ os)
  end.

(** What [defineOutput] returns: the terminal object, the console, or an
    object that calls both. *)
Inductive Target : Type := TheTerminal | TheConsole | Multicast.

Definition defineOutput (output : LogsOutput) : Target :=
  if negb (outputToConsole output) then TheTerminal
  else if negb (outputToTerminal output) then TheConsole
  else Multicast.

(** ** Vocabulary of the statements on the relay and the terminal *)

(** A number that is not negative. *)
Definition not_negative (n : jsnum) : bool :=
  match n with
  | JNaN => true
  | JInt z => 0 <=? z
  | JInf negative => negb negative
  end.

(** A count that [String.prototype.repeat] accepts: [NaN] or an integer
    that is not negative. *)
Definition valid_count (n : jsnum) : bool :=
  match n with
  | JNaN => true
  | JInt z => 0 <=? z
  | JInf _ => false
  end.

(** The indentation of a group level: two spaces for each level, none for
    [NaN]. *)
Definition indentation (g : jsnum) : string :=
  match g with
  | JInt n => repeat_string "  " (Z.to_nat n)
  | _ => EmptyString
  end.

(** The length of that indentation for a valid count. *)
Definition indent_size (g : jsnum) : Z :=
  match g with
  | JInt n => 2 * n
  | _ => 0
  end.

(** The number of lines of a text. *)
Definition lines (text : string) : Z := Z.of_nat (length (split newline text)).

(** The line that [formatLogs] writes for an event with a valid timestamp
    and group level, and the text it writes for a list of such events. *)
Definition line_of (isoString : Z → string) (e : StoredLog) : string :=
  "[" +:+ match timestamp e with
          | JInt z => isoString z
          | _ => EmptyString
          end
  +:+ "] [" +:+ toUpperCase (level_name (method e)) +:+ "] "
  +:+ indentation (groupLevel e) +:+ message e.

Definition text_of (isoString : Z → string) (logs : list StoredLog)
    (title : string) : string :=
  match logs with
  | [] => title +:+ ": No logs found."
  | _ :: _ =>
      title +:+ " (" +:+ Number_toString (Z.of_nat (length logs))
      +:+ " entries):" +:+ String newline (String newline EmptyString)
      +:+ join (String newline EmptyString) (line_of isoString <$> logs)
  end.

(** The title that [get-console-logs] gives to its text. *)
Definition logs_title (f : MCP.LevelFilter) : string :=
  "Recent Console Logs" +:+
  match f with
  | MCP.LAll => EmptyString
  | MCP.LOnly l => " (" +:+ level_name l +:+ ")"
  end.

(** The level under which the middleware files a method. *)
Definition stored_level (l : Level) : Level :=
  if decide (l = assert) then error else l.

(** The value of the counter [l] after a history of calls that starts with
    the value [acc]: the calls of [count] for [l] since the last
    [countReset] for [l]. *)
Fixpoint counted (l : string) (calls : list Call) (acc : Z) : Z :=
  match calls with
  | [] => acc
  | CCount label :: rest =>
      counted l rest
        (if decide (Terminal.label_or_default label = l) then acc + 1 else acc)
  | CCountReset label :: rest =>
      counted l rest
        (if decide (Terminal.label_or_default label = l) then 0 else acc)
  | _ :: rest => counted l rest acc
  end.

(** What holds of a relay from [configureServer] on: its settings stay,
    the store exists exactly when MCP is enabled, keeps its capacity [c] and
    its bound, and holds only events of the levels [L], none of level
    [assert] and none with a negative or infinite group level. *)
Definition relay_inv (enabled : bool) (c : Z) (L : list Level) (S : bool)
    (relay : Relay) : Prop :=
  mcpLevels relay = L ∧ mcpSilent relay = S ∧
  match logStore relay with
  | None => enabled = false
  | Some s =>
      enabled = true ∧ LogStore.maxSize s = c ∧
      LogStore.size s <= Z.max 0 c ∧
      Forall (λ e, method e ∈ L ∧ method e ≠ assert ∧
                   valid_count (groupLevel e) = true) (LogStore.logs s)
  end.

(** The events handed to [logStore.add] while a sequence of requests is
    served, in the order of the requests. *)
Fixpoint added_events (JSON_parse_ok : string → bool) (kMaxLength : N)
    (reqs : list Request) (relay : Relay) : list StoredLog :=
  match reqs with
  | [] => []
  | req :: rest =>
      match handle JSON_parse_ok kMaxLength relay req with
      | Threw => added_events JSON_parse_ok kMaxLength rest relay
      | Ended relay' added _ =>
          option_list added ++ added_events JSON_parse_ok kMaxLength rest relay'
      end
  end.

(** ** Properties of the store *)

Section store_facts.

Import LogStore.

Lemma tail_drop {A} (l : list A) k : tail (drop k l) = drop (S k) l.
Proof.
  revert k; induction l as [|x l IH]; intros [|k]; simpl; auto.
Qed.

Lemma addAll_snoc evs ev s :
  addAll (evs ++ [ev]) s = add ev (addAll evs s).
Proof. unfold addAll. by rewrite foldl_snoc. Qed.

Lemma maxSize_add ev s : maxSize (add ev s) = maxSize s.
Proof. unfold add. by destruct (_ >? _). Qed.

Lemma maxSize_addAll evs s : maxSize (addAll evs s) = maxSize s.
Proof.
  induction evs as [|ev evs IH] using rev_ind; [done|].
  by rewrite addAll_snoc, maxSize_add.
Qed.

(** The buffer after any run of [add] on a fresh store is the suffix of the
    inserted events that fits the capacity. *)
Lemma logs_addAll_new c evs :
  0 <= c →
  logs (addAll evs (new (Some c))) = drop (length evs - Z.to_nat c) evs.
Proof.
  intros Hc. induction evs as [|ev evs IH] using rev_ind; [done|].
  rewrite addAll_snoc. unfold add.
  rewrite maxSize_addAll, IH. simpl.
  rewrite !length_app, length_drop. simpl.
  destruct (Z.gtb_spec (Z.of_nat
    ((length evs - (length evs - Z.to_nat c)) + 1)%nat) c) as [Hgt|Hle]; simpl.
  - assert (Z.to_nat c <= length evs)%nat by lia.
    replace (length evs + 1 - Z.to_nat c)%nat
      with (S (length evs - Z.to_nat c)) by lia.
    rewrite <- tail_drop. f_equal.
    rewrite drop_app_le by lia. done.
  - assert (length evs < Z.to_nat c)%nat by lia.
    replace (length evs - Z.to_nat c)%nat with 0%nat by lia.
    replace (length evs + 1 - Z.to_nat c)%nat with 0%nat by lia.
    by rewrite !drop_0.
Qed.

Lemma size_addAll_new c evs :
  0 <= c →
  size (addAll evs (new (Some c))) = Z.min (Z.of_nat (length evs)) c.
Proof.
  intros Hc. unfold size. rewrite logs_addAll_new by done.
  rewrite length_drop. lia.
Qed.

(** Filters keep the order of the buffer and are monotone in it. *)
Lemma filter_sublist_mono {A} (P : A → Prop) `{!∀ x, Decision (P x)} l1 l2 :
  l1 `sublist_of` l2 → filter P l1 `sublist_of` filter P l2.
Proof.
  induction 1 as [|x l1 l2 _ IH|x l1 l2 _ IH]; rewrite ?filter_cons.
  - constructor.
  - destruct (decide (P x)); [by constructor | done].
  - destruct (decide (P x)); [by apply sublist_cons | done].
Qed.

Lemma filter_Forall_id {A} (P : A → Prop) `{!∀ x, Decision (P x)} l :
  Forall P l → filter P l = l.
Proof.
  induction 1 as [|x l Hx _ IH]; [done|].
  by rewrite filter_cons_True, IH.
Qed.

Lemma Forall_filter_holds {A} (P : A → Prop) `{!∀ x, Decision (P x)} l :
  Forall P (filter P l).
Proof. apply Forall_forall. intros x Hx. by apply list_elem_of_filter in Hx as [? _]. Qed.

(** [filter P l] is the greatest sublist of [l] whose elements satisfy [P]. *)
Lemma filter_greatest {A} (P : A → Prop) `{!∀ x, Decision (P x)} l r :
  r `sublist_of` l → Forall P r → r `sublist_of` filter P l.
Proof.
  intros Hsub HP. rewrite <- (filter_Forall_id P r HP).
  by apply filter_sublist_mono.
Qed.

Lemma slice_neg {A} (n : Z) (l : list A) :
  0 < n → slice (- n) l = drop (length l - Z.to_nat n) l.
Proof.
  intros Hn. unfold slice.
  destruct (Z.ltb_spec (- n) 0) as [_|?]; [|lia].
  f_equal. lia.
Qed.

Lemma slice_nonneg {A} (k : Z) (l : list A) :
  0 <= k → slice k l = drop (Z.to_nat k) l.
Proof.
  intros Hk. unfold slice.
  destruct (Z.ltb_spec k 0) as [?|_]; [lia|].
  destruct (Z.le_gt_cases k (Z.of_nat (length l))).
  - by rewrite Z.min_l.
  - rewrite Z.min_r, Nat2Z.id, !drop_ge by lia. done.
Qed.

(** [getRecent] for a positive count: the last [min count size] events. *)
Lemma getRecent_pos n s :
  0 < n →
  getRecent n s = drop (length (logs s) - Z.to_nat n) (logs s) ∧
  Z.of_nat (length (getRecent n s)) = Z.min n (size s).
Proof.
  intros Hn. unfold getRecent, size. rewrite slice_neg by done.
  split; [done|]. rewrite length_drop. lia.
Qed.

(** [getRecent] for a count of zero or below: [slice] receives a start that
    is not negative and drops that many events from the front. *)
Lemma getRecent_nonpos n s :
  n <= 0 → getRecent n s = drop (Z.to_nat (- n)) (logs s).
Proof. intros Hn. unfold getRecent. by rewrite slice_nonneg by lia. Qed.

End store_facts.

(** ** The bounded store: capacity, eviction and the read operations *)

Section store_claims.

Import LogStore.

(** C1. For a capacity [c >= 0] and any sequence of [add] calls on a store
    built with that capacity, the size never exceeds [c] and equals
    [min(totalAdds, c)]; once [c + k] events went in, the store holds exactly
    the last [c] of them, oldest first; with capacity 2, adding A, B, C makes
    [getAll()] return [B; C].  (The statement holds for every sequence [evs],
    hence after each call of the sequence.) *)
Theorem add_capacity_fifo (c : Z) (evs : list StoredLog) :
  0 <= c →
  let s := addAll evs (new (Some c)) in
  size s <= c ∧
  size s = Z.min (Z.of_nat (length evs)) c ∧
  (Z.of_nat (length evs) <= c → getAll s = evs) ∧
  (∀ evicted kept,
     evs = evicted ++ kept → Z.of_nat (length kept) = c → getAll s = kept) ∧
  (∀ A B C, c = 2 → evs = [A; B; C] → getAll s = [B; C]).
Proof.
  intros Hc s.
  assert (Hlogs : getAll s = drop (length evs - Z.to_nat c) evs)
    by (by apply logs_addAll_new).
  assert (Hsize : size s = Z.min (Z.of_nat (length evs)) c)
    by (by apply size_addAll_new).
  split_and!.
  - lia.
  - done.
  - intros Hle. rewrite Hlogs.
    replace (length evs - Z.to_nat c)%nat with 0%nat by lia. apply drop_0.
  - intros evicted kept -> Hk. rewrite Hlogs, length_app.
    replace (length evicted + length kept - Z.to_nat c)%nat
      with (length evicted) by lia.
    apply drop_app_length.
  - intros A B C -> ->. by rewrite Hlogs.
Qed.

Lemma add_capacity_fifo_witness :
  let A := mkStoredLog log "A" (JInt 1) (JInt 0) (JInt 0) in
  let B := mkStoredLog warn "B" (JInt 2) (JInt 1) (JInt 0) in
  let C := mkStoredLog error "C" (JInt 3) (JInt 2) (JInt 0) in
  0 <= 2 ∧
  size (addAll [A; B; C] (new (Some 2))) = 2 ∧
  getAll (addAll [A; B; C] (new (Some 2))) = [B; C].
Proof.
  intros A B C.
  assert (H : 0 <= 2) by lia.
  destruct (add_capacity_fifo 2 [A; B; C] H) as (_ & Hsize & _ & _ & Habc).
  split_and!; [exact H | exact Hsize | exact (Habc A B C eq_refl eq_refl)].
Defined.

(** C2, at the inputs where the code departs from it: [getRecent(0)] returns
    the whole store and [getRecent(-1)] all but the first event, because
    [slice] is handed [-count], which is then not negative. *)
Theorem getRecent_zero_returns_all :
  let A := mkStoredLog log "A" (JInt 1) (JInt 0) (JInt 0) in
  let B := mkStoredLog warn "B" (JInt 2) (JInt 1) (JInt 0) in
  let C := mkStoredLog error "C" (JInt 3) (JInt 2) (JInt 0) in
  let s := addAll [A; B; C] (new None) in
  getRecent 0 s = [A; B; C] ∧
  getRecent (-1) s = [B; C] ∧
  getRecent 2 s = [B; C] ∧
  getRecent 5 s = [A; B; C] ∧
  MCP.out_logs (MCP.get_console_logs (Some 0) (Some MCP.LAll) s) = [A; B; C].
Proof. by vm_compute. Qed.

(** C4. [getByLevel(L)] is exactly the stored events of level [L] in their
    stored order, and [getErrors()] exactly those of level [error] or
    [assert], in stored order.  Each result is a sublist of the buffer, holds
    the events with the property and no other, and is the greatest such
    sublist (so repeated events are kept as often as they are stored). *)
Theorem level_filters_exact (s : LogStore.t) (L : Level) :
  (getByLevel L s `sublist_of` getAll s ∧
   (∀ e, e ∈ getByLevel L s ↔ e ∈ getAll s ∧ method e = L) ∧
   (∀ r, r `sublist_of` getAll s → Forall (λ e, method e = L) r →
         r `sublist_of` getByLevel L s)) ∧
  (getErrors s `sublist_of` getAll s ∧
   (∀ e, e ∈ getErrors s ↔
         e ∈ getAll s ∧ (method e = error ∨ method e = assert)) ∧
   (∀ r, r `sublist_of` getAll s →
         Forall (λ e, method e = error ∨ method e = assert) r →
         r `sublist_of` getErrors s)) ∧
  (∀ e, e ∈ getErrors s ↔ e ∈ getByLevel error s ∨ e ∈ getByLevel assert s).
Proof.
  unfold getByLevel, getErrors, getAll. split_and!.
  - apply sublist_filter.
  - intros e. rewrite list_elem_of_filter. tauto.
  - intros r. apply filter_greatest.
  - apply sublist_filter.
  - intros e. rewrite list_elem_of_filter. tauto.
  - intros r. apply (filter_greatest (λ e, method e = error ∨ method e = assert)).
  - intros e. rewrite !list_elem_of_filter. tauto.
Qed.

(** C5. For [t <= t'], [getSince(t)] contains [getSince(t')], every event
    it returns has a timestamp [>= t], and the results keep the insertion
    order (they are sublists of the buffer, and the result for [t'] is a
    sublist of the result for [t]); after adding events with timestamps 100,
    200, 50, 300, [getSince(150)] returns the events of timestamps 200 and
    300, in that order. *)
Theorem getSince_monotone (s : LogStore.t) (t t' : jsnum) :
  js_le t t' = true →
  (∀ e, e ∈ getSince t' s → e ∈ getSince t s) ∧
  getSince t' s `sublist_of` getSince t s ∧
  getSince t s `sublist_of` getAll s ∧
  (∀ e, e ∈ getSince t s ↔ e ∈ getAll s ∧ js_ge (timestamp e) t = true) ∧
  (∀ e1 e2 e3 e4,
     timestamp e1 = JInt 100 → timestamp e2 = JInt 200 →
     timestamp e3 = JInt 50 → timestamp e4 = JInt 300 →
     getSince (JInt 150) (addAll [e1; e2; e3; e4] (new None)) = [e2; e4]).
Proof.
  intros Hle.
  assert (Hmono : ∀ e, js_ge (timestamp e) t' = true → js_ge (timestamp e) t = true).
  { intros e. unfold js_le, js_ge in *.
    destruct (timestamp e) as [|x|[]], t as [|y|[]], t' as [|y'|[]];
      simpl in *; try done; lia. }
  unfold getSince, getAll. split_and!.
  - intros e. rewrite !list_elem_of_filter. intros [? ?]. split; auto.
  - apply filter_greatest.
    + apply sublist_filter.
    + eapply Forall_impl; [apply Forall_filter_holds|]. exact Hmono.
  - apply sublist_filter.
  - intros e. rewrite list_elem_of_filter. tauto.
  - intros [m1 x1 t1 c1 g1] [m2 x2 t2 c2 g2] [m3 x3 t3 c3 g3] [m4 x4 t4 c4 g4].
    simpl. by intros -> -> -> ->.
Qed.

Lemma getSince_monotone_witness :
  let e1 := mkStoredLog log "a" (JInt 100) (JInt 0) (JInt 0) in
  let e2 := mkStoredLog error "b" (JInt 200) (JInt 1) (JInt 0) in
  let e3 := mkStoredLog warn "c" (JInt 50) (JInt 2) (JInt 0) in
  let e4 := mkStoredLog error "d" (JInt 300) (JInt 3) (JInt 0) in
  let s := addAll [e1; e2; e3; e4] (new None) in
  js_le (JInt 150) (JInt 250) = true ∧
  getSince (JInt 250) s `sublist_of` getSince (JInt 150) s ∧
  getSince (JInt 150) s = [e2; e4] ∧
  getErrors s = [e2; e4].
Proof.
  intros e1 e2 e3 e4 s.
  assert (H : js_le (JInt 150) (JInt 250) = true) by reflexivity.
  destruct (getSince_monotone s (JInt 150) (JInt 250) H) as (_ & Hsub & _ & _ & Hex).
  split_and!; [exact H | exact Hsub | | reflexivity].
  exact (Hex e1 e2 e3 e4 eq_refl eq_refl eq_refl eq_refl).
Defined.

(** ** The query tools over the store *)

(** C6. [get-console-stats] returns [total] equal to the size of the store;
    [oldestTimestamp] and [newestTimestamp] are [null] exactly when the store
    is empty, and are otherwise the timestamps of the first and of the last
    stored event. *)
Theorem stats_consistent (s : LogStore.t) :
  let stats := MCP.get_console_stats s in
  Stats.total stats = size s ∧
  (Stats.oldestTimestamp stats = None ↔ getAll s = []) ∧
  (Stats.newestTimestamp stats = None ↔ getAll s = []) ∧
  (Stats.oldestTimestamp stats = None ↔ size s = 0) ∧
  (Stats.newestTimestamp stats = None ↔ size s = 0) ∧
  (∀ e, head (getAll s) = Some e →
        Stats.oldestTimestamp stats = Some (timestamp e)) ∧
  (∀ e, last (getAll s) = Some e →
        Stats.newestTimestamp stats = Some (timestamp e)).
Proof.
  unfold MCP.get_console_stats, getAll, size. simpl.
  destruct (logs s) as [|e0 l] eqn:El using rev_ind.
  - simpl. split_and!; try done.
  - clear IHl. rewrite length_app. simpl.
    destruct (Z.gtb_spec (Z.of_nat (length l + 1)) 0) as [_|?]; [|lia].
    replace (Z.to_nat (Z.of_nat (length l + 1) - 1)) with (length l) by lia.
    assert (Hnew : (l ++ [e0]) !! length l = Some e0)
      by (by apply list_lookup_middle).
    assert (is_Some (head (l ++ [e0]))) as [e1 He1]
      by (destruct l; simpl; eauto).
    rewrite Hnew, last_snoc, <- head_lookup, He1. simpl.
    split_and!; try (split; [done | intros H; try lia; by destruct l]).
    + done.
    + by intros e [= ->].
    + by intros e [= ->].
Qed.

(** C8. [clear-console-logs] reports the size the store had, which is the
    number of events that [getAll()] returned, and leaves it empty; on an
    empty store it reports 0 and the size stays 0; a second call right after
    the first reports 0 and leaves the store as the first call left it, and
    [clear] is idempotent on the state of the store. *)
Theorem clear_idempotent (s : LogStore.t) :
  let first := MCP.clear_console_logs s in
  let second := MCP.clear_console_logs (snd first) in
  MCP.cleared (fst first) = size s ∧
  MCP.cleared (fst first) = Z.of_nat (length (getAll s)) ∧
  MCP.success (fst first) = true ∧
  getAll (snd first) = [] ∧
  size (snd first) = 0 ∧
  maxSize (snd first) = maxSize s ∧
  (getAll s = [] → MCP.cleared (fst first) = 0 ∧ snd first = s) ∧
  MCP.cleared (fst second) = 0 ∧
  snd second = snd first ∧
  clear (clear s) = clear s.
Proof.
  unfold MCP.clear_console_logs, clear, size, getAll. simpl.
  split_and!; try done.
  intros Hs. destruct s as [l m]. simpl in *. by subst.
Qed.

End store_claims.

(** ** The transport endpoint: decoding *)

Section decoding_facts.

Lemma split_nonempty sep s : split sep s ≠ [].
Proof.
  destruct s as [|c r]; simpl; [done|].
  destruct (Ascii.eqb c sep); [done|]. by destruct (split sep r).
Qed.

Lemma join_cons_char sep c h t :
  join sep (String c h :: t) = String c (join sep (h :: t)).
Proof. by destruct t. Qed.

(** [split] then [join] is the one-pass rewriting. *)
Lemma join_split_indent s :
  join (String newline "  ") (split newline s) = indent_newlines s.
Proof.
  induction s as [|c r IH]; [done|]. simpl.
  destruct (Ascii.eqb c newline).
  - destruct (split newline r) as [|h t] eqn:E; [by apply split_nonempty in E|].
    by rewrite <- IH.
  - destruct (split newline r) as [|h t] eqn:E; [by apply split_nonempty in E|].
    by rewrite join_cons_char, IH.
Qed.

Lemma indent_newlines_length s :
  (String.length s <= String.length (indent_newlines s))%nat.
Proof.
  induction s as [|c r IH]; simpl; [done|].
  destruct (Ascii.eqb c newline); simpl; lia.
Qed.

Lemma indent_newlines_single_line s :
  contains newline s = false → indent_newlines s = s.
Proof.
  induction s as [|c r IH]; simpl; [done|].
  destruct (Ascii.eqb c newline); simpl; [done|].
  intros H. by rewrite IH.
Qed.

Lemma indent_newlines_multi_line s :
  contains newline s = true →
  (String.length s < String.length (indent_newlines s))%nat.
Proof.
  induction s as [|c r IH]; simpl; [done|].
  destruct (Ascii.eqb c newline); simpl.
  - intros _. pose proof (indent_newlines_length r). lia.
  - intros H. apply IH in H. lia.
Qed.

Lemma not_decimal_digit_value c :
  is_decimal_digit c = false →
  match digit_value c with Some d => d <? 10 | None => false end = false.
Proof.
  unfold is_decimal_digit, digit_value.
  generalize (Z.of_N (N_of_ascii c)). intros n Hn. rewrite Hn.
  repeat case_match; simplify_eq; try done; lia.
Qed.

Lemma radix_digits_not_decimal c r :
  is_decimal_digit c = false → radix_digits 10 (String c r) = [].
Proof.
  intros H%not_decimal_digit_value. simpl.
  destruct (digit_value c); [by rewrite H | done].
Qed.

(** A text without a leading digit is read as [NaN]. *)
Lemma parseInt_no_leading_digit v :
  no_leading_digit v = true → parseInt v = JNaN.
Proof.
  unfold no_leading_digit, parseInt.
  destruct (strip_sign (trimStart v)) as [sign [|c r]]; cbn [snd]; [done|].
  intros Hc%negb_true_iff.
  assert (strip_prefix (String c r) = (10, String c r)) as ->.
  { unfold strip_prefix. destruct r as [|c1 r]; [done|].
    destruct (Ascii.eqb_spec c "0") as [->|]; [by vm_compute in Hc | done]. }
  by rewrite radix_digits_not_decimal.
Qed.

(** The character of a decimal digit. *)
Lemma digit_char_facts d :
  0 <= d < 10 →
  let c := ascii_of_N (Z.to_N (48 + d)) in
  is_white_space c = false ∧ Ascii.eqb c "-" = false ∧ Ascii.eqb c "+" = false ∧
  Ascii.eqb c "x" = false ∧ Ascii.eqb c "X" = false ∧
  is_decimal_digit c = true ∧ digit_value c = Some d.
Proof.
  intros Hd.
  assert (d = 0 ∨ d = 1 ∨ d = 2 ∨ d = 3 ∨ d = 4 ∨ d = 5 ∨ d = 6 ∨ d = 7 ∨
          d = 8 ∨ d = 9) as Hcases by lia.
  repeat destruct Hcases as [->|Hcases]; try subst d; by vm_compute.
Qed.

Lemma radix_digits_decimal ds rest :
  Forall (λ d, 0 <= d < 10) ds →
  match rest with
  | EmptyString => True
  | String c _ => is_decimal_digit c = false
  end →
  radix_digits 10 (decimal ds +:+ rest) = ds.
Proof.
  intros Hds Hrest. induction Hds as [|d ds Hd _ IH]; simpl.
  - destruct rest as [|c r]; [done|]. by apply radix_digits_not_decimal.
  - destruct (digit_char_facts d Hd) as (_ & _ & _ & _ & _ & _ & ->).
    destruct (Z.ltb_spec d 10); [|lia]. by rewrite IH.
Qed.

(** Below 2^53 the nearest double is the integer itself. *)
Lemma to_double_safe z : Z.abs z < 2 ^ 53 → to_double z = JInt z.
Proof.
  intros Hz. unfold to_double.
  by destruct (Z.ltb_spec (Z.abs z) (2 ^ 53)); [|lia].
Qed.

(** A text that begins with a decimal numeral is read as the double nearest
    to that numeral, whatever follows it. *)
Lemma parseInt_decimal ds rest :
  ds ≠ [] →
  Forall (λ d, 0 <= d < 10) ds →
  match rest with
  | EmptyString => True
  | String c _ => is_decimal_digit c = false ∧ c ≠ "x"%char ∧ c ≠ "X"%char
  end →
  parseInt (decimal ds +:+ rest) = to_double (math_int 10 ds).
Proof.
  intros Hne Hds Hrest.
  assert (radix_digits 10 (decimal ds +:+ rest) = ds) as Hdigits.
  { apply radix_digits_decimal; [done|]. destruct rest; tauto. }
  destruct ds as [|d0 ds]; [done|]. clear Hne.
  inversion Hds as [|? ? Hd0 Hds']; subst.
  destruct (digit_char_facts d0 Hd0) as (Hw & Hm & Hp & Hx & HX & _ & _).
  set (c0 := ascii_of_N (Z.to_N (48 + d0))) in *.
  change (decimal (d0 :: ds) +:+ rest) with (String c0 (decimal ds +:+ rest)) in *.
  assert (strip_prefix (String c0 (decimal ds +:+ rest))
          = (10, String c0 (decimal ds +:+ rest))) as Hprefix.
  { unfold strip_prefix.
    destruct ds as [|d1 ds].
    - change (decimal [] +:+ rest) with rest.
      destruct rest as [|c r]; [done|]. destruct Hrest as (_ & Hcx & HcX).
      destruct (Ascii.eqb_spec c "x"); [done|].
      destruct (Ascii.eqb_spec c "X"); [done|].
      by destruct (Ascii.eqb c0 "0").
    - inversion Hds' as [|? ? Hd1 _]; subst.
      destruct (digit_char_facts d1 Hd1) as (_ & _ & _ & Hx1 & HX1 & _ & _).
      change (decimal (d1 :: ds) +:+ rest)
        with (String (ascii_of_N (Z.to_N (48 + d1))) (decimal ds +:+ rest)).
      cbv iota. rewrite Hx1, HX1. by destruct (Ascii.eqb c0 "0"). }
  unfold parseInt. cbn [trimStart]. rewrite Hw.
  unfold strip_sign. rewrite Hm, Hp, Hprefix, Hdigits.
  f_equal. lia.
Qed.

End decoding_facts.

(** ** The transport endpoint: what a request stores *)

Section relay_facts.

Variable JSON_parse_ok : string → bool.
Variable kMaxLength : N.

(** The level under which a method is stored: [assert] becomes [error]. *)
Lemma handle_added relay req relay' ev d :
  handle JSON_parse_ok kMaxLength relay req = Ended relay' (Some ev) d →
  ∃ name l s,
    pathname req = String "/" name ∧
    get name methods = Some (MLevel l) ∧
    logStore relay = Some s ∧
    ev = mkStoredLog (if decide (l = assert) then error else l)
           (decodeMessage (searchParams req))
           (decodeNumber "t" (searchParams req))
           (decodeNumber "c" (searchParams req))
           (decodeNumber "g" (searchParams req)) ∧
    method ev ∈ mcpLevels relay ∧
    relay' = mkRelay (Some (LogStore.add ev s)) (mcpLevels relay) (mcpSilent relay).
Proof.
  unfold handle, built. destruct (_ <=? Z.of_N kMaxLength); [|done]. intros H.
  destruct (pathname req) as [|c name]; [done|].
  destruct (Ascii.eqb_spec c "/") as [->|]; [|done].
  destruct (get name methods) as [[l| |]|] eqn:Hm; simpl in H; try done.
  - destruct (bool_decide _); simpl in H; [|done].
    destruct (logStore relay) as [s|] eqn:Hs.
    + exists name, l, s. split_and!; try done;
        destruct l; simpl in *;
        case_bool_decide; simplify_eq/=; done.
    + destruct l; simplify_eq/=.
  - destruct (JSON_parse_ok _); simpl in H; [|done].
    destruct (logStore relay); simplify_eq/=.
  - destruct (logStore relay); simplify_eq/=.
Qed.

Lemma handle_not_added relay req relay' d :
  handle JSON_parse_ok kMaxLength relay req = Ended relay' None d → relay' = relay.
Proof.
  unfold handle, built. destruct (_ <=? Z.of_N kMaxLength); [|done]. intros H.
  destruct (pathname req) as [|c name]; [by simplify_eq|].
  destruct (Ascii.eqb c "/"); [|by simplify_eq].
  destruct (get name methods) as [[l| |]|]; simpl in H; [| | |by simplify_eq].
  - destruct (bool_decide _); simpl in H; [|done].
    destruct (logStore relay), l; simpl in H;
      repeat case_bool_decide; simplify_eq/=; done.
  - destruct (JSON_parse_ok _); simpl in H; [|done].
    destruct (logStore relay); by simplify_eq/=.
  - destruct (logStore relay); by simplify_eq/=.
Qed.

Lemma add_Forall (P : StoredLog → Prop) ev s :
  P ev → Forall P (LogStore.logs s) → Forall P (LogStore.logs (LogStore.add ev s)).
Proof.
  intros Hev Hs. unfold LogStore.add.
  assert (Forall P (LogStore.logs s ++ [ev])) as Hall
    by (apply Forall_app; auto).
  destruct (_ >? _); simpl; [|done].
  destruct (LogStore.logs s ++ [ev]) as [|x l]; simpl; [done|].
  by inversion Hall.
Qed.

(** With room for one event at least, the event just added is the last. *)
Lemma last_add ev s :
  0 < LogStore.maxSize s → last (LogStore.logs (LogStore.add ev s)) = Some ev.
Proof.
  intros Hmax. unfold LogStore.add.
  destruct (Z.gtb_spec (Z.of_nat (length (LogStore.logs s ++ [ev])))
              (LogStore.maxSize s)) as [Hgt|_]; simpl.
  - rewrite length_app in Hgt. simpl in Hgt.
    destruct (LogStore.logs s) as [|x l]; simpl in *; [lia|].
    apply last_snoc.
  - apply last_snoc.
Qed.

Lemma last_filter {A} (P : A → Prop) `{!∀ x, Decision (P x)} l x :
  last l = Some x → P x → last (filter P l) = Some x.
Proof.
  intros (l' & ->)%last_Some Hx.
  rewrite filter_app, filter_cons_True by done.
  rewrite filter_nil. apply last_snoc.
Qed.

(** No request makes the relay store an event under the level [assert]. *)
Lemma handle_no_assert relay req relay' added d :
  handle JSON_parse_ok kMaxLength relay req = Ended relay' added d →
  (∀ s, logStore relay = Some s →
        Forall (λ e, method e ≠ assert) (LogStore.logs s)) →
  ∀ s', logStore relay' = Some s' →
        Forall (λ e, method e ≠ assert) (LogStore.logs s').
Proof.
  intros H Hinv s' Hs'. destruct added as [ev|].
  - apply handle_added in H as (name & l & s & _ & _ & Hs & -> & _ & ->).
    simpl in Hs'. simplify_eq. apply add_Forall; [|by apply Hinv].
    simpl. by destruct l.
  - apply handle_not_added in H as ->. by apply Hinv.
Qed.

Lemma serve_no_assert reqs relay :
  (∀ s, logStore relay = Some s →
        Forall (λ e, method e ≠ assert) (LogStore.logs s)) →
  ∀ s', logStore (serve JSON_parse_ok kMaxLength reqs relay) = Some s' →
        Forall (λ e, method e ≠ assert) (LogStore.logs s').
Proof.
  revert relay. induction reqs as [|req reqs IH]; intros relay Hinv; [done|].
  simpl. apply IH.
  destruct (handle JSON_parse_ok kMaxLength relay req) as [|r' added d] eqn:H; [done|].
  by eapply handle_no_assert.
Qed.

Lemma configureServer_no_assert imported mcp s :
  logStore (configureServer imported mcp) = Some s →
  Forall (λ e, method e ≠ assert) (LogStore.logs s).
Proof.
  unfold configureServer. simpl.
  destruct mcp as [|[]|c], imported; intros ?; simplify_eq/=; constructor.
Qed.

End relay_facts.

Section relay_claims.

Variable JSON_parse_ok : string → bool.
Variable kMaxLength : N.

(** C3, as the code has it.  An event that reaches the relay with method
    [assert] is stored under the level [error]: that is its level in the
    store and in the result of [getErrors()].  Whatever requests the relay
    served since [configureServer], no stored event has level [assert], so
    [getByLevel('assert')] is empty and an assertion cannot be told from an
    error; when the store has room for an event, the one just added
    is the last of [getAll()], of [getErrors()] and of [getByLevel('error')]. *)
Theorem assert_stored_as_error (imported : bool) (mcp : McpOption)
    (reqs : list Request) (req : Request) (relay' : Relay) (ev : StoredLog) d :
  let relay :=
    serve JSON_parse_ok kMaxLength reqs (configureServer imported mcp) in
  pathname req = "/assert"%string →
  handle JSON_parse_ok kMaxLength relay req = Ended relay' (Some ev) d →
  method ev = error ∧
  ∃ s, logStore relay = Some s ∧
       logStore relay' = Some (LogStore.add ev s) ∧
       LogStore.getByLevel assert (LogStore.add ev s) = [] ∧
       (∀ e, e ∈ LogStore.getErrors (LogStore.add ev s) → method e = error) ∧
       (0 < LogStore.maxSize s →
          last (LogStore.getAll (LogStore.add ev s)) = Some ev ∧
          last (LogStore.getErrors (LogStore.add ev s)) = Some ev ∧
          last (LogStore.getByLevel error (LogStore.add ev s)) = Some ev).
Proof.
  intros relay Hpath H.
  pose proof (handle_no_assert _ _ _ _ _ _ _ H
    (serve_no_assert _ _ reqs _ (configureServer_no_assert imported mcp)))
    as Hinv.
  apply handle_added in H as (name & l & s & Hname & Hm & Hs & Hev & _ & ->).
  rewrite Hpath in Hname. injection Hname as <-.
  vm_compute in Hm. injection Hm as <-. simpl in Hev.
  assert (Hmeth : method ev = error) by (by subst ev).
  split; [done|]. exists s. split_and!; try done.
  - specialize (Hinv _ eq_refl).
    unfold LogStore.getByLevel.
    induction Hinv as [|e l He _ IH]; [done|].
    by rewrite filter_cons_False.
  - intros e [[He|He] Hin]%list_elem_of_filter; [done|].
    specialize (Hinv _ eq_refl).
    rewrite Forall_forall in Hinv. by apply Hinv in Hin.
  - intros Hmax. pose proof (last_add ev s Hmax) as Hlast.
    unfold LogStore.getAll, LogStore.getErrors, LogStore.getByLevel.
    split_and!; [done| |]; apply last_filter; auto.
Qed.

(** C10. The endpoint rewrites the [m] parameter before it stores it: each
    newline becomes a newline followed by two spaces.  The message of a
    stored event is that rewriting of the parameter (of the empty text when
    [m] is absent); it differs from the parameter, being longer, when the
    parameter has a newline, and is the parameter itself when it has none. *)
Theorem stored_message_newlines_indented (relay relay' : Relay)
    (req : Request) (ev : StoredLog) d :
  handle JSON_parse_ok kMaxLength relay req = Ended relay' (Some ev) d →
  let m := default EmptyString (get "m" (searchParams req)) in
  message ev = join (String newline "  ") (split newline m) ∧
  message ev = indent_newlines m ∧
  (contains newline m = true →
     message ev ≠ m ∧ (String.length m < String.length (message ev))%nat) ∧
  (contains newline m = false → message ev = m) ∧
  ∃ s, logStore relay = Some s ∧ logStore relay' = Some (LogStore.add ev s).
Proof.
  intros H m.
  apply handle_added in H as (name & l & s & _ & _ & Hs & Hev & _ & ->).
  assert (Hmsg : message ev = join (String newline "  ") (split newline m))
    by (by subst ev).
  assert (Hind : message ev = indent_newlines m)
    by (by rewrite Hmsg, join_split_indent).
  split_and!; [done|done| | |by exists s].
  - intros Hnl. apply indent_newlines_multi_line in Hnl.
    rewrite Hind. split; [|done]. intros Heq. rewrite Heq in Hnl. lia.
  - intros Hnl. rewrite Hind. by apply indent_newlines_single_line.
Qed.

End relay_claims.

(** How a numeric field is decoded: 0 when the parameter is absent, and
    otherwise what [parseInt] reads in it. *)
Lemma decodeNumber_cases (name : string) (params : list (string * string)) :
  (get name params = None → decodeNumber name params = JInt 0) ∧
  (∀ v, get name params = Some v → decodeNumber name params = parseInt v) ∧
  (∀ v, get name params = Some v → no_leading_digit v = true →
        decodeNumber name params = JNaN) ∧
  (∀ ds rest,
     get name params = Some (decimal ds +:+ rest) →
     ds ≠ [] → Forall (λ d, 0 <= d < 10) ds →
     match rest with
     | EmptyString => True
     | String c _ => is_decimal_digit c = false ∧ c ≠ "x"%char ∧ c ≠ "X"%char
     end →
     decodeNumber name params = to_double (math_int 10 ds)).
Proof.
  unfold decodeNumber. split_and!.
  - by intros ->.
  - by intros v ->.
  - intros v -> Hv. by apply parseInt_no_leading_digit.
  - intros ds rest -> Hne Hds Hrest. by apply parseInt_decimal.
Qed.

(** ** The query tool [get-console-logs] and its schema *)

Lemma get_not_in {V} (name : string) (entries : list (string * V)) :
  name ∉ (fst <$> entries) → get name entries = None.
Proof.
  induction entries as [|[k v] entries IH]; [done|].
  rewrite fmap_cons, not_elem_of_cons. intros [Hne Hrest]. simpl in Hne.
  cbn [get]. destruct (String.eqb_spec k name) as [->|_]; [done|]. by apply IH.
Qed.

Lemma parse_level_outside_enum lvl :
  lvl ∉ ["log"; "info"; "debug"; "warn"; "error"; "assert"; "all"]%string →
  MCP.parse_level lvl = None.
Proof. intros Hout. by apply get_not_in. Qed.

(** C9. A [get-console-logs] query whose [level] is outside the enum is
    rejected when its arguments are parsed, before the callback and so
    before any access to the store; the store is as it was and [getAll()]
    afterwards returns what it returned before.  (No query of this tool,
    accepted or not, changes the store.) *)
Theorem out_of_enum_level_rejected (isoString : Z → string) (kMaxLength : N)
    (s : LogStore.t) (args : list (string * jsarg)) (lvl : string) :
  get "level" args = Some (AStr lvl) →
  lvl ∉ ["log"; "info"; "debug"; "warn"; "error"; "assert"; "all"]%string →
  call_get_console_logs isoString kMaxLength args s = (MCP.InvalidParams, s) ∧
  LogStore.getAll (snd (call_get_console_logs isoString kMaxLength args s))
  = LogStore.getAll s ∧
  (∀ args', snd (call_get_console_logs isoString kMaxLength args' s) = s).
Proof.
  intros Hlvl Hout%parse_level_outside_enum.
  assert (Hsame : ∀ args',
            snd (call_get_console_logs isoString kMaxLength args' s) = s).
  { intros args'. unfold call_get_console_logs.
    destruct (MCP.parse_get_console_logs args') as [[c f]|]; [|done].
    by destruct (get_console_logs_tool _ _ _ _ _). }
  split_and!; [|by rewrite Hsame|done].
  unfold call_get_console_logs, MCP.parse_get_console_logs.
  rewrite Hlvl, Hout. by repeat case_match.
Qed.

(** ** The statements at concrete requests *)

Lemma out_of_enum_level_rejected_witness :
  let A := mkStoredLog log "A" (JInt 1) (JInt 0) (JInt 0) in
  let s := LogStore.add A (LogStore.new None) in
  let args := [("count"%string, ANum 5); ("level"%string, AStr "critical")] in
  let iso := λ _ : Z, "1970-01-01T00:00:00.000Z"%string in
  get "level" args = Some (AStr "critical") ∧
  call_get_console_logs iso 536870888 args s = (MCP.InvalidParams, s) ∧
  LogStore.getAll (snd (call_get_console_logs iso 536870888 args s)) = [A].
Proof.
  intros A s args iso.
  assert (Hout : "critical"%string ∉
            ["log"; "info"; "debug"; "warn"; "error"; "assert"; "all"]%string)
    by (apply (bool_decide_unpack _); by vm_compute).
  destruct (out_of_enum_level_rejected iso 536870888 s args "critical"
              eq_refl Hout) as (Hrej & Hall & _).
  split_and!; [reflexivity | exact Hrej | exact Hall].
Defined.

(** The claim C3 fails at an assertion sent to a relay with the default
    settings: the event is stored, and returned by [getErrors()], with the
    level [error], and [getByLevel('assert')] returns nothing. *)
Lemma assert_event_loses_its_level :
  let req := mkRequest "/assert"
    [("t", "1700000000000"); ("c", "7"); ("g", "0");
     ("m", "Assertion failed: x")]%string in
  let ev := mkStoredLog error "Assertion failed: x"
    (JInt 1700000000000) (JInt 7) (JInt 0) in
  let s' := LogStore.mk [ev] 1000 in
  handle (λ _, true) 536870888 (configureServer true (McpBool true)) req
    = Ended (mkRelay (Some s') [error; warn; info; log; debug; assert] false)
            (Some ev) (Some (JInt 1700000000000, JInt 7)) ∧
  LogStore.getAll s' = [ev] ∧
  LogStore.getErrors s' = [ev] ∧
  method ev ≠ assert ∧
  LogStore.getByLevel assert s' = [] ∧
  LogStore.getByLevel error s' = [ev].
Proof. intros req ev s'. split_and!; by vm_compute. Qed.

Lemma assert_stored_as_error_witness :
  let req := mkRequest "/assert"
    [("t", "1700000000000"); ("c", "7"); ("g", "0");
     ("m", "Assertion failed: x")]%string in
  let ev := mkStoredLog error "Assertion failed: x"
    (JInt 1700000000000) (JInt 7) (JInt 0) in
  let relay' := mkRelay (Some (LogStore.mk [ev] 1000))
    [error; warn; info; log; debug; assert] false in
  pathname req = "/assert"%string ∧
  handle (λ _, true) 536870888
    (serve (λ _, true) 536870888 [] (configureServer true (McpBool true))) req
    = Ended relay' (Some ev) (Some (JInt 1700000000000, JInt 7)) ∧
  method ev = error.
Proof.
  intros req ev relay'.
  assert (H : handle (λ _, true) 536870888
                (serve (λ _, true) 536870888 []
                   (configureServer true (McpBool true))) req
              = Ended relay' (Some ev) (Some (JInt 1700000000000, JInt 7)))
    by (by vm_compute).
  split_and!; [reflexivity | exact H |].
  exact (proj1 (assert_stored_as_error (λ _, true) 536870888 true
                  (McpBool true) [] req relay' ev _ eq_refl H)).
Defined.

(** C7, at the inputs where the code departs from it.  Only an absent
    parameter is decoded as 0; a parameter whose text has no leading digit
    is decoded as [NaN], and one with leading digits as the number they
    spell.  So a request with [t=abc], an empty [c] and [g=1x] is stored
    with a timestamp and a count that are [NaN] and a group level of 1,
    none of them 0.  Decoding raises no error, but the [NaN] timestamp then
    makes [get-console-logs] raise on that store. *)
Theorem malformed_numbers_are_not_zero :
  (∀ name params,
     get name params = None → decodeNumber name params = JInt 0) ∧
  (∀ name params v,
     get name params = Some v → no_leading_digit v = true →
     decodeNumber name params = JNaN) ∧
  let req := mkRequest "/log"
    [("t", "abc"); ("c", EmptyString); ("g", "1x"); ("m", "hi")]%string in
  let ev := mkStoredLog log "hi" JNaN JNaN (JInt 1) in
  let s' := LogStore.mk [ev] 1000 in
  let iso := λ _ : Z, "1970-01-01T00:00:00.000Z"%string in
  handle (λ _, true) 536870888 (configureServer true (McpBool true)) req
    = Ended (mkRelay (Some s') [error; warn; info; log; debug; assert] false)
            (Some ev) (Some (JNaN, JNaN)) ∧
  timestamp ev ≠ JInt 0 ∧ count ev ≠ JInt 0 ∧ groupLevel ev ≠ JInt 0 ∧
  decodeNumber "t" [("t", "abc")]%string = JNaN ∧
  decodeNumber "t" [("t", "12abc")]%string = JInt 12 ∧
  decodeNumber "t" [("m", "hi")]%string = JInt 0 ∧
  get_console_logs_tool iso 536870888 (Some 50) (Some MCP.LAll) s' = None.
Proof.
  split; [intros name params; apply decodeNumber_cases|].
  split; [intros name params v; apply decodeNumber_cases|].
  intros req ev s' iso. split_and!; by vm_compute.
Qed.

Lemma stored_message_newlines_indented_witness :
  let m := String "a" (String newline "b") in
  let req := mkRequest "/warn"
    [("t", "5"); ("c", "0"); ("g", "0"); ("m", m)]%string in
  let ev := mkStoredLog warn
    (String "a" (String newline (String " " (String " " "b"))))
    (JInt 5) (JInt 0) (JInt 0) in
  let relay' := mkRelay (Some (LogStore.mk [ev] 1000))
    [error; warn; info; log; debug; assert] false in
  handle (λ _, true) 536870888 (configureServer true (McpBool true)) req
    = Ended relay' (Some ev) (Some (JInt 5, JInt 0)) ∧
  message ev = indent_newlines m ∧
  message ev ≠ m.
Proof.
  intros m req ev relay'.
  assert (H : handle (λ _, true) 536870888 (configureServer true (McpBool true)) req
              = Ended relay' (Some ev) (Some (JInt 5, JInt 0)))
    by (by vm_compute).
  destruct (stored_message_newlines_indented (λ _, true) _ _ _ _ _ _ H)
    as (_ & Hind & Hmulti & _).
  split_and!; [exact H | exact Hind | exact (proj1 (Hmulti eq_refl))].
Defined.

(** ** The store under any use: histories of [add] and [clear] *)

Section store_histories.

Import LogStore.

Lemma sinceClear_snoc ops op acc :
  sinceClear (ops ++ [op]) acc =
  match op with
  | OpAdd ev => sinceClear ops acc ++ [ev]
  | OpClear => []
  end.
Proof.
  revert acc. induction ops as [|[ev'|] ops IH]; intros acc; simpl.
  - by destruct op.
  - apply IH.
  - apply IH.
Qed.

Lemma runOps_snoc ops op s : runOps (ops ++ [op]) s = runOp (runOps ops s) op.
Proof. unfold runOps. by rewrite foldl_snoc. Qed.

(** One [add] on a buffer that is the suffix of a history that fits: the
    buffer is again the suffix that fits, whatever the sign of [maxSize]. *)
Lemma add_keeps_suffix evs e s :
  logs s = drop (length evs - Z.to_nat (maxSize s)) evs →
  logs (add e s)
  = drop (length (evs ++ [e]) - Z.to_nat (maxSize s)) (evs ++ [e]).
Proof.
  intros Hs. unfold add. rewrite Hs, !length_app, length_drop. simpl.
  destruct (Z.gtb_spec (Z.of_nat
    ((length evs - (length evs - Z.to_nat (maxSize s))) + 1)%nat) (maxSize s))
    as [Hgt|Hle]; simpl.
  - assert (Z.to_nat (maxSize s) <= length evs)%nat by lia.
    replace (length evs + 1 - Z.to_nat (maxSize s))%nat
      with (S (length evs - Z.to_nat (maxSize s))) by lia.
    rewrite <- tail_drop. f_equal.
    by rewrite drop_app_le by lia.
  - assert (length evs < Z.to_nat (maxSize s))%nat by lia.
    replace (length evs - Z.to_nat (maxSize s))%nat with 0%nat by lia.
    replace (length evs + 1 - Z.to_nat (maxSize s))%nat with 0%nat by lia.
    by rewrite !drop_0.
Qed.

Lemma runOps_new c ops :
  maxSize (runOps ops (new (Some c))) = c ∧
  logs (runOps ops (new (Some c)))
  = drop (length (sinceClear ops []) - Z.to_nat c) (sinceClear ops []).
Proof.
  induction ops as [|op ops [IHm IHl]] using rev_ind; [done|].
  rewrite runOps_snoc, sinceClear_snoc. destruct op as [ev|]; simpl.
  - split; [by rewrite maxSize_add|].
    pose proof (add_keeps_suffix (sinceClear ops []) ev
                  (runOps ops (new (Some c)))) as Hadd.
    rewrite IHm in Hadd. by apply Hadd.
  - done.
Qed.

(** X1. Whatever the capacity [c] given to the constructor and whatever the
    history of [add] and [clear] calls, the store holds the last [c] events
    added since the last [clear], oldest first (none when [c <= 0]); its
    size is [max 0 (min n c)] for [n] such events, so never above
    [max 0 c], and [maxSize] never changes. *)
Theorem store_holds_last_since_clear (c : Z) (ops : list StoreOp) :
  let s := runOps ops (new (Some c)) in
  let evs := sinceClear ops [] in
  maxSize s = c ∧
  getAll s = drop (length evs - Z.to_nat c) evs ∧
  size s = Z.max 0 (Z.min (Z.of_nat (length evs)) c) ∧
  size s <= Z.max 0 c ∧
  (c <= 0 → getAll s = []).
Proof.
  intros s evs. destruct (runOps_new c ops) as [Hm Hl].
  fold s evs in Hm, Hl. unfold getAll, size. rewrite Hl.
  split_and!; [done|done| | |].
  - rewrite length_drop. lia.
  - rewrite length_drop. lia.
  - intros Hc. apply drop_ge. lia.
Qed.

(** The errors among the last [n] events are a suffix of the last [n]
    errors. *)
Lemma filter_drop_suffix {A} (P : A → Prop) `{!∀ x, Decision (P x)} (l : list A) n :
  filter P (drop (length l - n) l)
    `suffix_of` drop (length (filter P l) - n) (filter P l).
Proof.
  set (j := (length l - n)%nat).
  assert (filter P l = filter P (take j l) ++ filter P (drop j l)) as ->
    by (by rewrite <- filter_app, take_drop).
  rewrite length_app.
  assert (length (filter P (drop j l)) <= n)%nat.
  { etrans; [apply length_filter|]. rewrite length_drop. lia. }
  rewrite drop_app_le by lia.
  by apply suffix_app_r.
Qed.

(** X2. For [n > 0], [getRecentErrors(n)] is the last [min n k] of the [k]
    events of level [error] or [assert], in stored order; it reaches back as
    far as needed to find them, so the errors among the [n] most recent
    events ([getRecent(n)]) are a suffix of it. *)
Theorem getRecentErrors_last_errors (n : Z) (s : LogStore.t) :
  0 < n →
  getRecentErrors n s `suffix_of` getErrors s ∧
  Z.of_nat (length (getRecentErrors n s))
    = Z.min n (Z.of_nat (length (getErrors s))) ∧
  Forall (λ e, method e = error ∨ method e = assert) (getRecentErrors n s) ∧
  filter (λ e, method e = error ∨ method e = assert) (getRecent n s)
    `suffix_of` getRecentErrors n s.
Proof.
  intros Hn. unfold getRecentErrors, getRecent. rewrite !slice_neg by done.
  split_and!.
  - apply suffix_drop.
  - rewrite length_drop. lia.
  - apply Forall_drop, Forall_filter_holds.
  - apply filter_drop_suffix.
Qed.

Lemma getRecentErrors_last_errors_witness :
  let e1 := mkStoredLog error "a" (JInt 1) (JInt 0) (JInt 0) in
  let e2 := mkStoredLog log "b" (JInt 2) (JInt 1) (JInt 0) in
  let e3 := mkStoredLog assert "c" (JInt 3) (JInt 2) (JInt 0) in
  let e4 := mkStoredLog info "d" (JInt 4) (JInt 3) (JInt 0) in
  let s := addAll [e1; e2; e3; e4] (new None) in
  0 < 2 ∧
  getRecentErrors 2 s = [e1; e3] ∧
  filter (λ e, method e = error ∨ method e = assert) (getRecent 2 s) = [e3] ∧
  [e3] `suffix_of` getRecentErrors 2 s.
Proof.
  intros e1 e2 e3 e4 s.
  assert (H : 0 < 2) by lia.
  destruct (getRecentErrors_last_errors 2 s H) as (_ & _ & _ & Hsuf).
  split_and!; [exact H | reflexivity | reflexivity | exact Hsuf].
Defined.

End store_histories.

(** ** The lengths of the strings that are built *)

Section string_facts.

Lemma length_append s t :
  String.length (s +:+ t) = (String.length s + String.length t)%nat.
Proof.
  induction s as [|c s IH]; [done|].
  change (String c s +:+ t) with (String c (s +:+ t)). simpl. by rewrite IH.
Qed.

Lemma length_repeat_string s n :
  String.length (repeat_string s n) = (n * String.length s)%nat.
Proof.
  induction n as [|n IH]; [done|].
  change (repeat_string s (S n)) with (s +:+ repeat_string s n).
  rewrite length_append, IH. lia.
Qed.

Lemma length_indentation g :
  Z.of_nat (String.length (indentation g))
  = match g with JInt n => 2 * Z.max 0 n | _ => 0 end.
Proof.
  destruct g as [|n|]; [done| |done].
  unfold indentation. rewrite length_repeat_string. simpl. lia.
Qed.

(** The length of joined parts: the parts and a separator between each
    two. *)
Lemma length_join sep parts :
  String.length (join sep parts)
  = (sum_list (String.length <$> parts)
     + String.length sep * (length parts - 1))%nat.
Proof.
  induction parts as [|p rest IH]; [simpl; lia|].
  destruct rest as [|q rest]; [simpl; lia|].
  change (join sep (p :: q :: rest)) with (p +:+ sep +:+ join sep (q :: rest)).
  rewrite !length_append, IH, !fmap_cons.
  cbn [sum_list_with id length]. lia.
Qed.

Lemma length_join_elem sep parts p :
  p ∈ parts → (String.length p <= String.length (join sep parts))%nat.
Proof.
  intros Hin. rewrite length_join. etrans; [|apply Nat.le_add_r].
  induction Hin as [p rest|p q rest Hin IH];
    rewrite fmap_cons; cbn [sum_list_with id]; lia.
Qed.

(** The parts of a text and the separators between them make its length. *)
Lemma length_split c s :
  (sum_list (String.length <$> split c s) + (length (split c s) - 1)
   = String.length s)%nat.
Proof.
  induction s as [|a s IH]; [done|]. simpl.
  pose proof (split_nonempty c s) as Hne.
  destruct (Ascii.eqb a c); simpl.
  - destruct (split c s); [done|].
    rewrite !fmap_cons in *. cbn [sum_list_with id length String.length] in *. lia.
  - destruct (split c s) as [|h t]; [done|].
    rewrite !fmap_cons in *. cbn [sum_list_with id length String.length] in *. lia.
Qed.

Lemma lines_pos text : 0 < lines text.
Proof.
  unfold lines. pose proof (split_nonempty newline text).
  destruct (split newline text); [done|]. simpl. lia.
Qed.

Lemma built_Some (k : N) s r :
  built k s = Some r ↔ r = s ∧ Z.of_nat (String.length s) <= Z.of_N k.
Proof.
  unfold built. destruct (Z.leb_spec (Z.of_nat (String.length s)) (Z.of_N k)).
  - split; [by intros [= <-]|by intros [-> _]].
  - split; [done|]. intros [_ ?]. lia.
Qed.

Lemma built_fits (k : N) s :
  Z.of_nat (String.length s) <= Z.of_N k → built k s = Some s.
Proof. intros. by apply built_Some. Qed.

Lemma built_None (k : N) s :
  built k s = None ↔ Z.of_N k < Z.of_nat (String.length s).
Proof.
  unfold built. destruct (Z.leb_spec (Z.of_nat (String.length s)) (Z.of_N k)).
  - split; [done|lia].
  - done.
Qed.

(** [repeat] on the two spaces of an indentation. *)
Lemma js_repeat_Some (k : N) g pad :
  js_repeat k "  " g = Some pad ↔
  valid_count g = true ∧ pad = indentation g ∧
  Z.of_nat (String.length (indentation g)) <= Z.of_N k.
Proof.
  rewrite length_indentation.
  unfold js_repeat, valid_count, indentation. destruct g as [|n|].
  - split; [intros [= <-]; split_and!; [done|done|lia] | by intros (_ & -> & _)].
  - destruct (Z.ltb_spec n 0), (Z.leb_spec 0 n); try lia.
    + split; [done | by intros (? & _)].
    + change (Z.of_nat (String.length "  ")) with 2.
      destruct (Z.leb_spec (2 * n) (Z.of_N k)).
      * split; [intros [= <-]; split_and!; [done|done|lia] | by intros (_ & -> & _)].
      * split; [done|]. intros (_ & _ & ?). lia.
  - split; [done | by intros (? & _)].
Qed.

End string_facts.

(** ** The query tools: their renderings *)

Section tool_facts.

Variable isoString : Z → string.
Variable kMaxLength : N.

Lemma valid_count_not_negative g :
  valid_count g = true → not_negative g = true.
Proof. by destruct g. Qed.

(** A line is written exactly when the timestamp is a valid date, the group
    level a valid count and the line not too long; the indentation is part
    of the line, so that it fits when the line does. *)
Lemma formatLine_Some e line :
  formatLine isoString kMaxLength e = Some line ↔
  valid_time (timestamp e) = true ∧ valid_count (groupLevel e) = true ∧
  line = line_of isoString e ∧
  Z.of_nat (String.length line) <= Z.of_N kMaxLength.
Proof.
  unfold formatLine, Date_toISOString, valid_time, line_of.
  destruct (timestamp e) as [|z|];
    [split; [done|by intros (? & _)]| |split; [done|by intros (? & _)]].
  destruct (Z.abs z <=? maxTime); [|split; [done|by intros (? & _)]].
  destruct (js_repeat kMaxLength "  " (groupLevel e)) as [pad|] eqn:Hpad.
  - apply js_repeat_Some in Hpad as (Hg & -> & _).
    rewrite built_Some. split.
    + intros [-> ?]. by split_and!.
    + intros (_ & _ & -> & ?). by split.
  - split; [done|]. intros (_ & Hg & -> & Hfit). exfalso.
    assert (js_repeat kMaxLength "  " (groupLevel e)
            = Some (indentation (groupLevel e))) as Hsome; [|congruence].
    apply js_repeat_Some. split_and!; [done|done|].
    etrans; [|apply Hfit]. rewrite !length_append. lia.
Qed.

Lemma mapM_formatLine logs ls :
  mapM (formatLine isoString kMaxLength) logs = Some ls ↔
  Forall (λ e, valid_time (timestamp e) = true ∧
               valid_count (groupLevel e) = true ∧
               Z.of_nat (String.length (line_of isoString e))
                 <= Z.of_N kMaxLength) logs ∧
  ls = line_of isoString <$> logs.
Proof.
  rewrite mapM_Some. split.
  - intros H. induction H as [|e line logs ls He _ [IH1 IH2]]; [done|].
    apply formatLine_Some in He as (? & ? & -> & ?).
    split; [by constructor|]. by rewrite fmap_cons, IH2.
  - intros [H ->]. induction H as [|e logs (? & ? & ?) _ IH]; [constructor|].
    rewrite fmap_cons. constructor; [|done]. by apply formatLine_Some.
Qed.

(** When [formatLogs] answers, and with what: the length of the whole text
    is the only bound, since every string built on the way is part of it. *)
Lemma formatLogs_Some logs title text :
  formatLogs isoString kMaxLength logs title = Some text ↔
  Forall (λ e, valid_time (timestamp e) = true ∧
               valid_count (groupLevel e) = true) logs ∧
  text = text_of isoString logs title ∧
  Z.of_nat (String.length text) <= Z.of_N kMaxLength.
Proof.
  unfold formatLogs. destruct (decide (length logs = 0%nat)) as [H0|Hne].
  { apply nil_length_inv in H0 as ->. rewrite built_Some. split.
    - intros [-> ?]. by split_and!.
    - intros (_ & -> & ?). by split. }
  destruct logs as [|e0 logs0]; [done|]. clear Hne.
  set (logs := e0 :: logs0).
  assert (Htext : text_of isoString logs title
                  = title +:+ " (" +:+ Number_toString (Z.of_nat (length logs))
                    +:+ " entries):" +:+ String newline (String newline EmptyString)
                    +:+ join (String newline EmptyString) (line_of isoString <$> logs))
    by done.
  destruct (mapM _ logs) as [ls|] eqn:Hls.
  - apply mapM_formatLine in Hls as [Hall ->].
    assert (Hvalid : Forall (λ e, valid_time (timestamp e) = true ∧
                                  valid_count (groupLevel e) = true) logs).
    { eapply Forall_impl; [exact Hall|]. by intros e (? & ? & _). }
    destruct (built kMaxLength (join _ _)) as [formatted|] eqn:Hf.
    + apply built_Some in Hf as [-> _]. rewrite built_Some, Htext. split.
      * intros [-> ?]. by split_and!.
      * intros (_ & -> & ?). by split.
    + split; [done|]. intros (_ & -> & Hfit). exfalso.
      apply built_None in Hf. rewrite Htext in Hfit.
      rewrite !length_append in Hfit. lia.
  - split; [done|]. intros (Hvalid & -> & Hfit). exfalso.
    assert (mapM (formatLine isoString kMaxLength) logs
            = Some (line_of isoString <$> logs)) as Hsome; [|congruence].
    apply mapM_formatLine. split; [|done].
    rewrite Forall_forall in Hvalid |- *. intros e He.
    destruct (Hvalid e He) as [? ?]. split_and!; [done|done|].
    etrans; [|apply Hfit]. rewrite Htext, !length_append.
    assert (String.length (line_of isoString e)
            <= String.length (join (String newline EmptyString)
                                (line_of isoString <$> logs)))%nat.
    { apply length_join_elem. by apply list_elem_of_fmap_2. }
    lia.
Qed.

(** A rendering raises whenever an event has a timestamp that is not a
    valid date. *)
Lemma formatLogs_valid_time logs title :
  is_Some (formatLogs isoString kMaxLength logs title) →
  Forall (λ e, valid_time (timestamp e) = true) logs.
Proof.
  intros [text (H & _)%formatLogs_Some].
  eapply Forall_impl; [exact H|]. by intros e [? _].
Qed.

(** The answer of a tool that renders [logs] under [title]. *)
Lemma rendering_Some {A} logs title (out : A) r :
  match formatLogs isoString kMaxLength logs title with
  | None => None
  | Some text => Some (mkToolResult text out)
  end = Some r ↔
  Forall (λ e, valid_time (timestamp e) = true ∧
               valid_count (groupLevel e) = true) logs ∧
  r = mkToolResult (text_of isoString logs title) out ∧
  Z.of_nat (String.length (text_of isoString logs title)) <= Z.of_N kMaxLength.
Proof.
  destruct (formatLogs _ _ _ _) as [text|] eqn:Htext.
  - apply formatLogs_Some in Htext as (? & -> & ?). split.
    + intros [= <-]. by split_and!.
    + by intros (_ & -> & _).
  - split; [done|]. intros (? & _ & ?). exfalso.
    assert (formatLogs isoString kMaxLength logs title
            = Some (text_of isoString logs title)) as Hsome; [|congruence].
    apply formatLogs_Some. by split_and!.
Qed.

End tool_facts.

Section tool_claims.

Variable isoString : Z → string.
Variable kMaxLength : N.

(** X3. The callback of [get-console-logs] with a count [n > 0] renders the
    last [min n k] of the [k] stored events of the level asked for (of all
    stored events for ['all']), in stored order.  It answers exactly when
    [formatLogs] has a text for them: every timestamp a valid date, every
    group level a valid count and the text within the bound on strings; the
    answer then carries that text, the logs, their number and the level.
    It raises as soon as one of them has a timestamp that is not a valid
    date, such as the [NaN] that a malformed [t] leaves. *)
Theorem get_console_logs_callback (s : LogStore.t) (n : Z) (f : MCP.LevelFilter) :
  0 < n →
  let matching :=
    match f with
    | MCP.LAll => LogStore.getAll s
    | MCP.LOnly l => LogStore.getByLevel l s
    end in
  let logs := drop (length matching - Z.to_nat n) matching in
  let output :=
    MCP.mkLogsOutput logs (Z.min n (Z.of_nat (length matching))) f in
  logs `suffix_of` matching ∧
  get_console_logs_tool isoString kMaxLength (Some n) (Some f) s
  = (λ text, mkToolResult text output)
      <$> formatLogs isoString kMaxLength logs (logs_title f) ∧
  (is_Some (get_console_logs_tool isoString kMaxLength (Some n) (Some f) s) ↔
   Forall (λ e, valid_time (timestamp e) = true ∧
                valid_count (groupLevel e) = true) logs ∧
   Z.of_nat (String.length (text_of isoString logs (logs_title f)))
     <= Z.of_N kMaxLength) ∧
  (∀ e, e ∈ logs → valid_time (timestamp e) = false →
        get_console_logs_tool isoString kMaxLength (Some n) (Some f) s = None).
Proof.
  intros Hn matching logs output.
  assert (Hslice : match f with
                   | MCP.LAll => LogStore.getRecent n s
                   | MCP.LOnly l => slice (- n) (LogStore.getByLevel l s)
                   end = logs).
  { unfold logs, matching, LogStore.getRecent, LogStore.getAll.
    destruct f; by rewrite slice_neg. }
  assert (Hout : MCP.get_console_logs (Some n) (Some f) s = output).
  { unfold MCP.get_console_logs. simpl. rewrite Hslice. unfold output.
    f_equal. unfold logs. rewrite length_drop. lia. }
  assert (Hcall : get_console_logs_tool isoString kMaxLength (Some n) (Some f) s
                  = (λ text, mkToolResult text output)
                      <$> formatLogs isoString kMaxLength logs (logs_title f)).
  { unfold get_console_logs_tool. rewrite Hout. unfold output at 1 2. simpl.
    fold (logs_title f). by destruct (formatLogs _ _ _ _). }
  split_and!; [apply suffix_drop | exact Hcall | |].
  - rewrite Hcall, fmap_is_Some. split.
    + intros [text (? & -> & ?)%formatLogs_Some]. by split.
    + intros [? ?]. eexists. apply formatLogs_Some. by split_and!.
  - intros e He Hbad. rewrite Hcall.
    destruct (formatLogs _ _ _ _) as [text|] eqn:Htext; [|done].
    apply formatLogs_Some in Htext as (Hall & _).
    rewrite Forall_forall in Hall. destruct (Hall e He). congruence.
Qed.

End tool_claims.

Lemma get_console_logs_callback_witness :
  let iso := λ _ : Z, "1970-01-01T00:00:00.000Z"%string in
  let e1 := mkStoredLog warn "a" (JInt 1) (JInt 0) (JInt 0) in
  let e2 := mkStoredLog log "b" (JInt 2) (JInt 1) (JInt 0) in
  let e3 := mkStoredLog warn "c" JNaN (JInt 2) (JInt 0) in
  let s := LogStore.addAll [e1; e2; e3] (LogStore.new None) in
  0 < 1 ∧
  get_console_logs_tool iso 536870888 (Some 1) (Some (MCP.LOnly log)) s
  = Some (mkToolResult
            ("Recent Console Logs (log) (1 entries):" +:+
             String newline (String newline
               "[1970-01-01T00:00:00.000Z] [LOG] b"))
            (MCP.mkLogsOutput [e2] 1 (MCP.LOnly log))) ∧
  get_console_logs_tool iso 536870888 (Some 1) (Some (MCP.LOnly warn)) s = None.
Proof.
  intros iso e1 e2 e3 s.
  assert (H : 0 < 1) by lia.
  destruct (get_console_logs_callback iso 536870888 s 1 (MCP.LOnly warn) H)
    as (_ & _ & _ & Hnone).
  split_and!; [exact H | by vm_compute |].
  apply (Hnone e3); [|done].
  apply (bool_decide_unpack _). by vm_compute.
Defined.

(** ** The relay over its whole life *)

Section relay_life_facts.

Variable JSON_parse_ok : string → bool.
Variable kMaxLength : N.

Lemma length_indentation_valid g :
  valid_count g = true →
  Z.of_nat (String.length (indentation g)) = indent_size g.
Proof.
  intros Hg. rewrite length_indentation. destruct g as [|n|]; [done| |done].
  simpl in *. lia.
Qed.

(** The length of a grouped text: the text and one pad for each line. *)
Lemma length_grouped pad text :
  Z.of_nat (String.length
    (pad +:+ join (String newline pad) (split newline text)))
  = Z.of_nat (String.length text) + Z.of_nat (String.length pad) * lines text.
Proof.
  unfold lines. rewrite length_append, length_join.
  pose proof (length_split newline text) as Hsplit.
  pose proof (split_nonempty newline text) as Hne.
  destruct (split newline text) as [|h t]; [done|].
  cbn [length String.length] in *. nia.
Qed.

(** When [groupText] has a result, and which. *)
Lemma groupText_Some text g r :
  groupText kMaxLength text g = Some r ↔
  (g = JInt 0 ∧ r = text) ∨
  (g ≠ JInt 0 ∧ valid_count g = true ∧
   r = indentation g +:+ join (String newline (indentation g))
                           (split newline text) ∧
   indent_size g + 1 <= Z.of_N kMaxLength ∧
   Z.of_nat (String.length text) + indent_size g * lines text
     <= Z.of_N kMaxLength).
Proof.
  unfold groupText. destruct (decide (g = JInt 0)) as [->|Hg].
  { split; [intros [= <-]; by left|]. by intros [[_ ->]|[? _]]. }
  split.
  - intros H. right.
    destruct (js_repeat _ _ g) as [pad|] eqn:Hpad; [|done].
    apply js_repeat_Some in Hpad as (Hv & -> & _).
    destruct (built kMaxLength (String newline _)) as [sep|] eqn:Hsep; [|done].
    apply built_Some in Hsep as [-> Hsep].
    destruct (built kMaxLength (join _ _)) as [joined|] eqn:Hj; [|done].
    apply built_Some in Hj as [-> _].
    apply built_Some in H as [-> Hfit].
    rewrite length_grouped, length_indentation_valid in Hfit by done.
    cbn [String.length] in Hsep.
    pose proof (length_indentation_valid g Hv). split_and!; try done. lia.
  - intros [[? _]|(_ & Hv & -> & Hsep & Hfit)]; [done|].
    pose proof (length_indentation_valid g Hv) as Hlen.
    pose proof (lines_pos text) as Hlines.
    assert (0 <= indent_size g) by lia.
    assert (js_repeat kMaxLength "  " g = Some (indentation g)) as ->.
    { apply js_repeat_Some. split_and!; [done|done|lia]. }
    rewrite (built_fits _ (String newline _))
      by (cbn [String.length]; lia).
    pose proof (length_grouped (indentation g) text) as Hgr.
    rewrite length_append in Hgr.
    rewrite (built_fits _ (join _ _)) by nia.
    apply built_fits. rewrite length_append. nia.
Qed.

Lemma groupText_None text g :
  groupText kMaxLength text g = None ↔
  g ≠ JInt 0 ∧
  (valid_count g = false ∨
   Z.of_N kMaxLength < indent_size g + 1 ∨
   Z.of_N kMaxLength
     < Z.of_nat (String.length text) + indent_size g * lines text).
Proof.
  destruct (groupText kMaxLength text g) as [r|] eqn:H.
  - split; [done|]. intros [Hg Hbad].
    apply groupText_Some in H as [[-> _]|(_ & Hv & _ & ? & ?)]; [done|].
    destruct Hbad as [?|[?|?]]; [congruence|lia|lia].
  - split; [|done]. intros _.
    destruct (decide (g = JInt 0)) as [->|Hg]; [done|]. split; [done|].
    destruct (valid_count g) eqn:Hv; [|by left]. right.
    destruct (Z.lt_ge_cases (Z.of_N kMaxLength) (indent_size g + 1));
      [by left|].
    destruct (Z.lt_ge_cases (Z.of_N kMaxLength)
                (Z.of_nat (String.length text) + indent_size g * lines text));
      [by right|].
    exfalso.
    assert (is_Some (groupText kMaxLength text g)) as [r Hr]; [|congruence].
    eexists. apply groupText_Some. right. split_and!; try done; lia.
Qed.

Lemma groupText_valid_count text g :
  is_Some (groupText kMaxLength text g) → valid_count g = true.
Proof.
  intros [r [[-> _]|(_ & ? & _)]%groupText_Some]; done.
Qed.

(** What one request does to the relay. *)
Lemma handle_step relay req relay' added d :
  handle JSON_parse_ok kMaxLength relay req = Ended relay' added d →
  mcpLevels relay' = mcpLevels relay ∧ mcpSilent relay' = mcpSilent relay ∧
  match added with
  | Some ev =>
      ∃ s, logStore relay = Some s ∧
           logStore relay' = Some (LogStore.add ev s) ∧
           method ev ∈ mcpLevels relay ∧ method ev ≠ assert ∧
           valid_count (groupLevel ev) = true
  | None => logStore relay' = logStore relay
  end.
Proof.
  intros H. destruct added as [ev|].
  - assert (Hg : valid_count (groupLevel ev) = true).
    { revert H. unfold handle.
      destruct (built kMaxLength _) as [message_|]; [|done].
      destruct (pathname req) as [|c name]; [done|].
      destruct (Ascii.eqb c "/"); [|done].
      destruct (get name methods) as [[l| |]|]; simpl; try done.
      - case_bool_decide as Hprep; simpl; [|done].
        apply groupText_valid_count in Hprep.
        destruct (logStore relay), l; simpl;
          repeat case_bool_decide; intros; by simplify_eq/=.
      - destruct (JSON_parse_ok _); simpl; [|done].
        destruct (logStore relay); intros; simplify_eq/=.
      - destruct (logStore relay); intros; simplify_eq/=. }
    apply handle_added in H as (name & l & s & _ & _ & Hs & Hev & Hin & ->).
    split_and!; [done|done|]. exists s. split_and!; try done.
    subst ev. simpl. by destruct l.
  - by apply handle_not_added in H as ->.
Qed.

(** When a request raises. *)
Lemma handle_Threw relay req :
  let msg := decodeMessage (searchParams req) in
  let g := decodeNumber "g" (searchParams req) in
  handle JSON_parse_ok kMaxLength relay req = Threw ↔
  Z.of_N kMaxLength < Z.of_nat (String.length msg) ∨
  ∃ name m,
    pathname req = String "/" name ∧ get name methods = Some m ∧
    ((m = table ∧ JSON_parse_ok msg = false) ∨
     (∃ l, m = MLevel l ∧ g ≠ JInt 0 ∧
           (valid_count g = false ∨
            Z.of_N kMaxLength < indent_size g + 1 ∨
            Z.of_N kMaxLength
              < Z.of_nat (String.length msg) + indent_size g * lines msg))).
Proof.
  intros msg g. unfold handle. fold msg g.
  destruct (built kMaxLength msg) as [message_|] eqn:Hmsg.
  - apply built_Some in Hmsg as [-> Hfit]. split.
    + destruct (pathname req) as [|c name] eqn:Hpath; [done|].
      destruct (Ascii.eqb_spec c "/") as [->|Hc]; [|done].
      destruct (get name methods) as [m|] eqn:Hm; [|done].
      intros H. right. exists name, m. split_and!; [done|done|].
      destruct m as [l| |]; cbv beta iota zeta in H.
      * right. exists l. case_bool_decide as Hprep; [done|].
        destruct (groupText kMaxLength msg g) as [r|] eqn:Hr;
          [by destruct Hprep; eauto|].
        apply groupText_None in Hr as [? ?]. by split_and!.
      * left. by destruct (JSON_parse_ok _).
      * done.
    + intros [?|(name & m & Hpath & Hm & Hcase)]; [lia|].
      rewrite Hpath. cbv beta iota zeta.
      rewrite Ascii.eqb_refl, Hm.
      destruct Hcase as [[-> HJ]|(l & -> & Hg & Hbad)].
      * by rewrite HJ.
      * case_bool_decide as Hprep; [|done].
        assert (groupText kMaxLength msg g = None) as Hnone
          by (by apply groupText_None).
        rewrite Hnone in Hprep. by destruct Hprep.
  - apply built_None in Hmsg. split; [by left|done].
Qed.

Lemma size_add_bound ev s :
  LogStore.size s <= Z.max 0 (LogStore.maxSize s) →
  LogStore.size (LogStore.add ev s) <= Z.max 0 (LogStore.maxSize s).
Proof.
  unfold LogStore.size, LogStore.add. intros Hs.
  destruct (Z.gtb_spec (Z.of_nat (length (LogStore.logs s ++ [ev])))
              (LogStore.maxSize s)) as [Hgt|Hle]; simpl.
  - destruct (LogStore.logs s) as [|x l]; simpl in *;
      rewrite ?length_app in *; simpl in *; lia.
  - lia.
Qed.

Lemma handle_inv enabled c L S relay req relay' added d :
  handle JSON_parse_ok kMaxLength relay req = Ended relay' added d →
  relay_inv enabled c L S relay → relay_inv enabled c L S relay'.
Proof.
  intros (HL & HS & Hadd)%handle_step (<- & <- & Hstore).
  split_and!; [done|done|]. destruct added as [ev|].
  - destruct Hadd as (s & Hs & -> & Hin & Hna & Hg).
    rewrite Hs in Hstore. destruct Hstore as (-> & <- & Hsize & Hall).
    split_and!; [done|by rewrite maxSize_add|by apply size_add_bound|].
    by apply add_Forall.
  - by rewrite Hadd.
Qed.

Lemma serve_inv enabled c L S reqs relay :
  relay_inv enabled c L S relay →
  relay_inv enabled c L S (serve JSON_parse_ok kMaxLength reqs relay).
Proof.
  revert relay. induction reqs as [|req reqs IH]; intros relay Hinv; [done|].
  simpl. apply IH.
  destruct (handle JSON_parse_ok kMaxLength relay req) as [|r' added d] eqn:H; [done|].
  by eapply handle_inv.
Qed.

Lemma configureServer_inv imported mcp :
  let enabled :=
    match mcp with
    | McpUndefined => false
    | McpBool b => b
    | McpObject _ => true
    end in
  let cfg :=
    match mcp with
    | McpObject cfg => cfg
    | _ => mkMcpConfig None None None
    end in
  relay_inv (enabled && imported) (default 1000 (maxLogs cfg))
    (default [error; warn; info; log; debug; assert] (levels cfg))
    (default false (silent cfg)) (configureServer imported mcp).
Proof.
  intros enabled cfg. unfold relay_inv, configureServer. simpl.
  split_and!; [done|done|].
  fold enabled cfg. destruct enabled, imported; try done.
  split_and!; try done.
  unfold LogStore.size. simpl. lia.
Qed.

End relay_life_facts.

Section relay_life.

Variable JSON_parse_ok : string → bool.
Variable kMaxLength : N.
Variable isoString : Z → string.

(** X5. The relay never holds more than its capacity: after any requests,
    the store made by [configureServer] has the [maxSize] given as [maxLogs]
    (1000 when absent) and a size of at most [max 0 maxSize].  The store
    exists exactly when the [mcp] option enables it and the MCP modules
    could be imported: when the import fails, the [catch] leaves the relay
    without a store, whatever the option.  The levels and the silent flag
    are those of the option. *)
Theorem relay_store_bounded (imported : bool) (mcp : McpOption)
    (reqs : list Request) :
  let relay :=
    serve JSON_parse_ok kMaxLength reqs (configureServer imported mcp) in
  let cfg :=
    match mcp with
    | McpObject cfg => cfg
    | _ => mkMcpConfig None None None
    end in
  mcpLevels relay = default [error; warn; info; log; debug; assert] (levels cfg) ∧
  mcpSilent relay = default false (silent cfg) ∧
  (is_Some (logStore relay) ↔
   imported = true ∧ mcp ≠ McpUndefined ∧ mcp ≠ McpBool false) ∧
  (∀ s, logStore relay = Some s →
        LogStore.maxSize s = default 1000 (maxLogs cfg) ∧
        LogStore.size s <= Z.max 0 (LogStore.maxSize s)).
Proof.
  intros relay cfg.
  pose proof (serve_inv JSON_parse_ok kMaxLength _ _ _ _ reqs _
                (configureServer_inv imported mcp)) as (HL & HS & Hstore).
  fold relay cfg in HL, HS, Hstore.
  split_and!; [done|done| |].
  - destruct (logStore relay) as [s|].
    + destruct Hstore as (Hen & _). split; [|eauto]. intros _.
      destruct mcp as [|[]|], imported; done.
    + split; [by intros [? ?]|]. intros (? & ? & ?).
      destruct mcp as [|[]|], imported; done.
  - intros s Hs. rewrite Hs in Hstore.
    destruct Hstore as (_ & Hm & Hsize & _). by rewrite Hm.
Qed.

(** X6. Every event that the relay holds has a level listed in [levels],
    which is never [assert], and a group level that is not negative ([NaN]
    or [>= 0]) nor infinite: a request with a negative [g] raises before the
    store is reached. *)
Theorem relay_stored_events (imported : bool) (mcp : McpOption)
    (reqs : list Request) (s : LogStore.t) (e : StoredLog) :
  logStore (serve JSON_parse_ok kMaxLength reqs (configureServer imported mcp))
    = Some s →
  e ∈ LogStore.getAll s →
  method e ∈ mcpLevels (configureServer imported mcp) ∧
  method e ≠ assert ∧
  not_negative (groupLevel e) = true ∧
  valid_count (groupLevel e) = true.
Proof.
  intros Hs Hin.
  pose proof (serve_inv JSON_parse_ok kMaxLength _ _ _ _ reqs _
                (configureServer_inv imported mcp)) as (_ & _ & Hstore).
  rewrite Hs in Hstore. destruct Hstore as (_ & _ & _ & Hall).
  rewrite Forall_forall in Hall. apply Hall in Hin as (? & ? & ?).
  split_and!; [done|done| |done]. by apply valid_count_not_negative.
Qed.

(** X7. On the store of the relay, the rendering of an answer raises
    exactly when one of the events to render has a timestamp that is not a
    valid date ([NaN], as left by a malformed [t], or beyond the range of
    [Date]), or the text would be longer than the engine allows a string to
    be; the group levels are never the reason, since a request whose group
    level [repeat] refuses is not stored.  [get-console-logs] and
    [get-console-errors] then have no answer at all.  When they have one,
    its structured part is the output computed from the store and its text
    the rendering of the logs. *)
Theorem relay_query_rendering (imported : bool) (mcp : McpOption)
    (reqs : list Request) (s : LogStore.t) (count_ : option Z)
    (level : option MCP.LevelFilter) :
  logStore (serve JSON_parse_ok kMaxLength reqs (configureServer imported mcp))
    = Some s →
  let output := MCP.get_console_logs count_ level s in
  let title := logs_title (default MCP.LAll level) in
  let errors := LogStore.getRecentErrors (default 10 count_) s in
  (is_Some (get_console_logs_tool isoString kMaxLength count_ level s) ↔
   Forall (λ e, valid_time (timestamp e) = true) (MCP.out_logs output) ∧
   Z.of_nat (String.length (text_of isoString (MCP.out_logs output) title))
     <= Z.of_N kMaxLength) ∧
  (is_Some (get_console_errors isoString kMaxLength count_ s) ↔
   Forall (λ e, valid_time (timestamp e) = true) errors ∧
   Z.of_nat (String.length (text_of isoString errors "Recent Console Errors"))
     <= Z.of_N kMaxLength) ∧
  (∀ r, get_console_logs_tool isoString kMaxLength count_ level s = Some r →
        structuredContent r = output ∧
        content_text r = text_of isoString (MCP.out_logs output) title) ∧
  (∀ r, get_console_errors isoString kMaxLength count_ s = Some r →
        out_errors (structuredContent r) = errors ∧
        content_text r = text_of isoString errors "Recent Console Errors").
Proof.
  intros Hs output title errors.
  pose proof (serve_inv JSON_parse_ok kMaxLength _ _ _ _ reqs _
                (configureServer_inv imported mcp)) as (_ & _ & Hstore).
  rewrite Hs in Hstore. destruct Hstore as (_ & _ & _ & Hall).
  assert (Hsub : ∀ l, l `sublist_of` LogStore.logs s →
            (Forall (λ e, valid_time (timestamp e) = true ∧
                          valid_count (groupLevel e) = true) l
             ↔ Forall (λ e, valid_time (timestamp e) = true) l)).
  { intros l Hl. rewrite !Forall_forall. split; intros H e He.
    - by apply H.
    - split; [by apply H|]. rewrite Forall_forall in Hall.
      apply Hall. by eapply elem_of_sublist. }
  assert (Hslice : ∀ k (l : list StoredLog), slice k l `sublist_of` l)
    by (intros; apply sublist_drop).
  assert (Hlogs : MCP.out_logs output `sublist_of` LogStore.logs s).
  { unfold output, MCP.get_console_logs. simpl.
    destruct (default MCP.LAll level); [apply Hslice|].
    etrans; [apply Hslice|]. apply sublist_filter. }
  assert (Herrors : errors `sublist_of` LogStore.logs s).
  { etrans; [apply Hslice|]. apply sublist_filter. }
  assert (Htool : ∀ r,
            get_console_logs_tool isoString kMaxLength count_ level s = Some r ↔
            Forall (λ e, valid_time (timestamp e) = true ∧
                         valid_count (groupLevel e) = true)
              (MCP.out_logs output) ∧
            r = mkToolResult (text_of isoString (MCP.out_logs output) title)
                  output ∧
            Z.of_nat (String.length
                        (text_of isoString (MCP.out_logs output) title))
              <= Z.of_N kMaxLength).
  { intros r. apply (rendering_Some isoString kMaxLength _ title output r). }
  assert (Herr : ∀ r,
            get_console_errors isoString kMaxLength count_ s = Some r ↔
            Forall (λ e, valid_time (timestamp e) = true ∧
                         valid_count (groupLevel e) = true) errors ∧
            r = mkToolResult (text_of isoString errors "Recent Console Errors")
                  (mkErrorsOutput errors (Z.of_nat (length errors))) ∧
            Z.of_nat (String.length
                        (text_of isoString errors "Recent Console Errors"))
              <= Z.of_N kMaxLength).
  { intros r. apply (rendering_Some isoString kMaxLength errors _ _ r). }
  split_and!.
  - rewrite <- (Hsub _ Hlogs). split.
    + intros [r (? & _ & ?)%Htool]. by split.
    + intros [? ?]. eexists. apply Htool. by split_and!.
  - rewrite <- (Hsub _ Herrors). split.
    + intros [r (? & _ & ?)%Herr]. by split.
    + intros [? ?]. eexists. apply Herr. by split_and!.
  - by intros r (_ & -> & _)%Htool.
  - by intros r (_ & -> & _)%Herr.
Qed.

(** X8. A request for a known method that does not raise is stored exactly
    when the relay has a store and the method is a level whose stored name
    is listed in [levels]; for [assert] the name looked up is [error], so
    listing [assert] has no effect.  [table] and [clear] are never stored,
    and nothing is when MCP is off. *)
Theorem stored_exactly_when (relay relay' : Relay) (req : Request)
    (name : string) (m : Method) (added : option StoredLog) d :
  pathname req = String "/" name →
  get name methods = Some m →
  handle JSON_parse_ok kMaxLength relay req = Ended relay' added d →
  (is_Some added ↔
   is_Some (logStore relay) ∧
   ∃ l, m = MLevel l ∧ stored_level l ∈ mcpLevels relay) ∧
  (added = None → relay' = relay) ∧
  (∀ ev, added = Some ev → method ev ∈ mcpLevels relay).
Proof.
  intros Hpath Hm H. split_and!.
  - revert H. unfold handle.
    destruct (built kMaxLength _) as [message_|]; [|done].
    rewrite Hpath. cbv beta iota zeta.
    rewrite Ascii.eqb_refl, Hm.
    destruct m as [l| |]; simpl.
    + destruct (bool_decide _); simpl; [|done].
      destruct (logStore relay) as [s|].
      * unfold stored_level.
        destruct l; simpl; case_bool_decide as Hin; intros [= <- <- <-]; split;
          try (by intros [? ?]);
          try (by intros (_ & ? & [= <-] & Hx); simpl in Hx);
          try (by intros _; split; [eauto|]; eexists; split; [done|]);
          try (by intros _; eauto).
      * intros [= <- <- <-]. split; [by intros [? ?]|by intros ([? ?] & _)].
    + destruct (JSON_parse_ok _); simpl; [|done].
      destruct (logStore relay); intros [= <- <- <-];
        (split; [by intros [? ?]|by intros (_ & ? & ? & _)]).
    + destruct (logStore relay); intros [= <- <- <-];
        (split; [by intros [? ?]|by intros (_ & ? & ? & _)]).
  - intros ->. by apply handle_not_added in H.
  - intros ev ->. by apply handle_added in H as (? & ? & ? & _ & _ & _ & _ & ? & _).
Qed.

(** X9. A request for a known method that does not raise is stored or
    handed to the live output, or both: it is kept from the live output
    exactly when the relay is silent and stores it.  What is handed over
    carries the decoded [t] and [c]. *)
Theorem silent_only_when_stored (relay relay' : Relay) (req : Request)
    (name : string) (m : Method) (added : option StoredLog) d :
  pathname req = String "/" name →
  get name methods = Some m →
  handle JSON_parse_ok kMaxLength relay req = Ended relay' added d →
  (is_Some added ∨ is_Some d) ∧
  (d = None ↔ mcpSilent relay = true ∧ is_Some added) ∧
  (∀ x, d = Some x →
        x = (decodeNumber "t" (searchParams req),
             decodeNumber "c" (searchParams req))).
Proof.
  intros Hpath Hm. unfold handle.
  destruct (built kMaxLength _) as [message_|]; [|done].
  rewrite Hpath. cbv beta iota zeta.
  rewrite Ascii.eqb_refl, Hm.
  assert (Hgen : ∀ (toStore : option StoredLog) r1 x,
    Ended r1 toStore
      (if negb (mcpSilent relay) || negb (bool_decide (is_Some toStore))
       then Some x else None) = Ended relay' added d →
    (is_Some added ∨ is_Some d) ∧
    (d = None ↔ mcpSilent relay = true ∧ is_Some added) ∧
    (∀ y, d = Some y → y = x)).
  { intros toStore r1 x.
    destruct (mcpSilent relay), toStore as [ev|]; simpl;
      intros [= <- <- <-]; split_and!; eauto;
      try (split; [done | by intros [? [? ?]]]);
      try (split; [done | by intros [? ?]]);
      try (by intros y [= <-]); try done. }
  destruct m as [l| |]; simpl.
  - destruct (bool_decide _); simpl; [|done]. apply Hgen.
  - destruct (JSON_parse_ok _); simpl; [|done].
    destruct (logStore relay); apply Hgen.
  - destruct (logStore relay); apply Hgen.
Qed.

(** X10. A request raises, whatever the settings of the relay, exactly when
    its message with the newlines indented is longer than the engine allows
    a string to be, or it is for [table] with a message that is not JSON,
    or it is for a level method with a group level [g] other than 0 for
    which [groupText] cannot build its text: [g] is negative or infinite,
    or the pad after a newline is too long, or the message with one pad for
    each of its lines is.  Nothing is stored then.  A request for an unknown
    method, or with a path that does not start with a slash, is answered
    and ignored when its message is not too long.  The path is the
    [pathname] that [parseURL] gives for the URL of the request. *)
Theorem handle_raises_exactly_when (relay : Relay) (req : Request) :
  let msg := decodeMessage (searchParams req) in
  let g := decodeNumber "g" (searchParams req) in
  (handle JSON_parse_ok kMaxLength relay req = Threw ↔
   Z.of_N kMaxLength < Z.of_nat (String.length msg) ∨
   ∃ name m,
     pathname req = String "/" name ∧ get name methods = Some m ∧
     ((m = table ∧ JSON_parse_ok msg = false) ∨
      (∃ l, m = MLevel l ∧ g ≠ JInt 0 ∧
            (valid_count g = false ∨
             Z.of_N kMaxLength < indent_size g + 1 ∨
             Z.of_N kMaxLength
               < Z.of_nat (String.length msg) + indent_size g * lines msg)))) ∧
  (Z.of_nat (String.length msg) <= Z.of_N kMaxLength →
   (∀ name, pathname req = String "/" name → get name methods = None) →
   handle JSON_parse_ok kMaxLength relay req = Ended relay None None).
Proof.
  intros msg g. split; [apply handle_Threw|].
  intros Hfit Hnone. unfold handle. fold msg.
  rewrite (built_fits _ _ Hfit).
  destruct (pathname req) as [|c name]; [done|].
  destruct (Ascii.eqb_spec c "/") as [->|]; [|done].
  by rewrite (Hnone name eq_refl).
Qed.

End relay_life.

(** ** The renderings and [get-console-logs-since] *)

Section rendering_claims.

Variable isoString : Z → string.
Variable kMaxLength : N.

(** X11. [formatLogs] raises exactly when one of the events has a timestamp
    that is not a valid date or a group level that is negative or infinite,
    or when its whole text is longer than the engine allows a string to be:
    the lines, their indentations and the joined lines are parts of that
    text, so that none of them is too long when it is not.  The text is the
    title and [No logs found.] for an empty list, and otherwise the title,
    the number of entries and a line for each event. *)
Theorem formatLogs_raises_exactly_when (logs : list StoredLog) (title : string) :
  (formatLogs isoString kMaxLength logs title = None ↔
   Exists (λ e, valid_time (timestamp e) = false ∨
                valid_count (groupLevel e) = false) logs ∨
   Z.of_N kMaxLength
     < Z.of_nat (String.length (text_of isoString logs title))) ∧
  (∀ text, formatLogs isoString kMaxLength logs title = Some text →
           text = text_of isoString logs title ∧
           Z.of_nat (String.length text) <= Z.of_N kMaxLength) ∧
  (logs = [] →
   text_of isoString logs title = title +:+ ": No logs found.") ∧
  (logs ≠ [] →
   ∃ lines_,
     Forall2 (λ e line, line = line_of isoString e) logs lines_ ∧
     text_of isoString logs title
     = title +:+ " (" +:+ Number_toString (Z.of_nat (length logs))
       +:+ " entries):" +:+ String newline (String newline EmptyString)
       +:+ join (String newline EmptyString) lines_).
Proof.
  split_and!.
  - destruct (formatLogs isoString kMaxLength logs title) as [text|] eqn:H.
    + apply formatLogs_Some in H as (Hall & -> & Hfit).
      split; [done|]. intros [Hex|?]; [|lia]. exfalso.
      rewrite Forall_forall in Hall.
      apply Exists_exists in Hex as (e & He & Hbad).
      destruct (Hall e He). destruct Hbad; congruence.
    + split; [|done]. intros _.
      destruct (decide (Forall (λ e, valid_time (timestamp e) = true ∧
                                     valid_count (groupLevel e) = true) logs))
        as [Hall|Hex].
      * right.
        destruct (Z.lt_ge_cases (Z.of_N kMaxLength)
                    (Z.of_nat (String.length (text_of isoString logs title))))
          as [?|Hfit]; [done|]. exfalso.
        assert (formatLogs isoString kMaxLength logs title
                = Some (text_of isoString logs title)) as Hsome; [|congruence].
        apply formatLogs_Some. by split_and!.
      * left. apply not_Forall_Exists in Hex; [|apply _].
        eapply Exists_impl; [exact Hex|]. intros e He. simpl in He.
        destruct (valid_time (timestamp e)); [|by left].
        destruct (valid_count (groupLevel e)); [|by right].
        by destruct He.
  - intros text (_ & -> & ?)%formatLogs_Some. by split.
  - by intros ->.
  - intros Hne. destruct logs as [|e rest]; [done|].
    exists (line_of isoString <$> e :: rest). split; [|done].
    apply Forall2_fmap_r, Forall_Forall2_diag, Forall_true. done.
Qed.

(** X12. [get-console-logs-since] raises when its timestamp is beyond the
    range of [Date], even on an empty store.  When it answers, the logs are
    exactly the stored events with a timestamp [>= timestamp] and, for a
    level other than ['all'], of that level, in stored order; their
    timestamps are integers between [timestamp] and the end of the range of
    [Date], [count] is their number and [since] the ISO text of the
    timestamp. *)
Theorem get_console_logs_since_answer (timestamp_ : Z)
    (level : option MCP.LevelFilter) (s : LogStore.t) :
  (maxTime < Z.abs timestamp_ →
   get_console_logs_since isoString kMaxLength timestamp_ level s = None) ∧
  (∀ r, get_console_logs_since isoString kMaxLength timestamp_ level s = Some r →
     let out := structuredContent r in
     since_logs out `sublist_of` LogStore.getAll s ∧
     (∀ e, e ∈ since_logs out ↔
           e ∈ LogStore.getAll s ∧
           js_ge (timestamp e) (JInt timestamp_) = true ∧
           (∀ l, level = Some (MCP.LOnly l) → method e = l)) ∧
     Forall (λ e, ∃ z, timestamp e = JInt z ∧ timestamp_ <= z <= maxTime)
       (since_logs out) ∧
     since_count out = Z.of_nat (length (since_logs out)) ∧
     since_since out = isoString timestamp_ ∧
     since_level out = default MCP.LAll level).
Proof.
  unfold get_console_logs_since, Date_toISOString. split.
  - intros Hbig. destruct (Z.leb_spec (Z.abs timestamp_) maxTime); [lia|done].
  - intros r.
    destruct (Z.abs timestamp_ <=? maxTime); [|done].
    set (logs := match default MCP.LAll level with
                 | MCP.LAll => LogStore.getSince (JInt timestamp_) s
                 | MCP.LOnly l =>
                     filter (λ log_, method log_ = l)
                       (LogStore.getSince (JInt timestamp_) s)
                 end).
    destruct (formatLogs isoString kMaxLength logs _) as [text|] eqn:Htext;
      [|done].
    intros [= <-]. simpl.
    assert (Hin : ∀ e, e ∈ logs ↔
              e ∈ LogStore.getAll s ∧
              js_ge (timestamp e) (JInt timestamp_) = true ∧
              (∀ l, level = Some (MCP.LOnly l) → method e = l)).
    { intros e. unfold logs, LogStore.getSince, LogStore.getAll.
      destruct level as [[|l]|]; simpl; rewrite ?list_elem_of_filter.
      - split; [intros [? ?]; by split_and! | tauto].
      - split.
        + intros (? & ? & ?). split_and!; try done. by intros ? [= <-].
        + intros (? & ? & Hl). split_and!; try done. by apply Hl.
      - split; [intros [? ?]; by split_and! | tauto]. }
    split_and!; try done.
    + unfold logs, LogStore.getSince, LogStore.getAll.
      destruct (default MCP.LAll level); [apply sublist_filter|].
      etrans; apply sublist_filter.
    + assert (is_Some (formatLogs isoString kMaxLength logs
                ("Console Logs Since " +:+ isoString timestamp_))) as Hok
        by eauto.
      apply formatLogs_valid_time in Hok.
      rewrite Forall_forall in Hok |- *. intros e He.
      pose proof (Hok e He) as Hvalid.
      apply Hin in He as (_ & Hge & _).
      unfold js_ge, valid_time in *.
      destruct (timestamp e) as [|z|]; [done| |done]. exists z. split; [done|].
      apply Z.leb_le in Hge, Hvalid. lia.
Qed.

End rendering_claims.

(** ** [groupText]: the indentation of the live output *)

Section groupText_facts.

Lemma append_empty_r s : s +:+ EmptyString = s.
Proof.
  induction s as [|c s IH]; [done|].
  change (String c s +:+ EmptyString) with (String c (s +:+ EmptyString)).
  by rewrite IH.
Qed.

Lemma split_newline_cons s :
  split newline (String newline s) = EmptyString :: split newline s.
Proof. done. Qed.

(** A text without newline in front of a text joins its first line. *)
Lemma split_app_single_line p s :
  contains newline p = false →
  split newline (p +:+ s) =
  match split newline s with
  | h :: t => (p +:+ h) :: t
  | [] => [p]
  end.
Proof.
  induction p as [|c p IH]; intros Hp.
  - change (EmptyString +:+ s) with s.
    destruct (split newline s) eqn:E; [by apply split_nonempty in E|done].
  - simpl in Hp. apply orb_false_iff in Hp as [Hc Hp].
    change (String c p +:+ s) with (String c (p +:+ s)).
    cbn [split]. rewrite Hc, (IH Hp).
    destruct (split newline s) eqn:E; [by apply split_nonempty in E|done].
Qed.

Lemma split_single_line s :
  contains newline s = false → split newline s = [s].
Proof.
  intros Hs. rewrite <- (append_empty_r s) at 1.
  rewrite split_app_single_line by done. simpl.
  by rewrite append_empty_r.
Qed.

(** The pieces of [split] have no newline. *)
Lemma split_pieces s :
  Forall (λ p, contains newline p = false) (split newline s).
Proof.
  induction s as [|c s IH]; simpl; [by repeat constructor|].
  destruct (Ascii.eqb c newline) eqn:Hc; [by constructor|].
  destruct (split newline s) as [|h t]; [by repeat constructor; simpl; rewrite Hc|].
  inversion IH; subst. constructor; [|done]. simpl. by rewrite Hc.
Qed.

(** Joining lines with a newline and a pad, then splitting: the first line
    is as it was and every other line has the pad in front. *)
Lemma split_join_pad pad h t :
  contains newline pad = false →
  Forall (λ p, contains newline p = false) (h :: t) →
  split newline (join (String newline pad) (h :: t))
  = h :: ((λ line, pad +:+ line) <$> t).
Proof.
  intros Hpad. revert h. induction t as [|h2 t IH]; intros h Hall.
  - simpl. apply split_single_line. by inversion Hall.
  - inversion Hall as [|? ? Hh Hrest]; subst.
    change (join (String newline pad) (h :: h2 :: t))
      with (h +:+ String newline (pad +:+ join (String newline pad) (h2 :: t))).
    rewrite split_app_single_line by done.
    rewrite split_newline_cons, append_empty_r.
    rewrite split_app_single_line by done.
    by rewrite (IH h2 Hrest).
Qed.

Lemma join_split_id s :
  join (String newline EmptyString) (split newline s) = s.
Proof.
  induction s as [|c r IH]; [done|]. simpl.
  destruct (Ascii.eqb_spec c newline) as [->|].
  - destruct (split newline r) as [|h t] eqn:E; [by apply split_nonempty in E|].
    by rewrite <- IH.
  - destruct (split newline r) as [|h t] eqn:E; [by apply split_nonempty in E|].
    by rewrite join_cons_char, IH.
Qed.

Lemma repeat_spaces_single_line n :
  contains newline (repeat_string "  " n) = false.
Proof.
  induction n as [|n IH]; [done|].
  change (repeat_string "  " (S n))
    with (String " " (String " " (repeat_string "  " n))).
  simpl. by rewrite IH.
Qed.

Lemma repeat_spaces_length n :
  String.length (repeat_string "  " n) = (2 * n)%nat.
Proof.
  induction n as [|n IH]; [done|].
  change (repeat_string "  " (S n))
    with (String " " (String " " (repeat_string "  " n))).
  simpl. lia.
Qed.

End groupText_facts.

(** X13. [groupText] leaves the text as it is for the group level 0, and
    for [NaN] as long as the text and a newline are strings that the engine
    allows; it raises for a negative or an infinite level.  For a level
    [g > 0] it puts [2 g] spaces in front of every line: the lines of its
    result are the lines of the text, in order, each with that pad in front,
    and its length is that of the text and [2 g] for each line.  It raises
    instead when the pad after a newline, or that result, is longer than
    the engine allows a string to be. *)
Theorem groupText_pads_every_line (kMaxLength : N) (text : string) (g : Z) :
  groupText kMaxLength text (JInt 0) = Some text ∧
  (Z.of_nat (String.length text) <= Z.of_N kMaxLength →
   1 <= Z.of_N kMaxLength →
   groupText kMaxLength text JNaN = Some text) ∧
  (g < 0 → groupText kMaxLength text (JInt g) = None) ∧
  (∀ negative, groupText kMaxLength text (JInf negative) = None) ∧
  (0 < g →
   let pad := repeat_string "  " (Z.to_nat g) in
   let size := Z.of_nat (String.length text) + 2 * g * lines text in
   (2 * g + 1 <= Z.of_N kMaxLength ∧ size <= Z.of_N kMaxLength →
    ∃ r, groupText kMaxLength text (JInt g) = Some r ∧
         Z.of_nat (String.length pad) = 2 * g ∧
         Z.of_nat (String.length r) = size ∧
         split newline r = (λ line, pad +:+ line) <$> split newline text) ∧
   (Z.of_N kMaxLength < 2 * g + 1 ∨ Z.of_N kMaxLength < size →
    groupText kMaxLength text (JInt g) = None)).
Proof.
  split_and!.
  - done.
  - intros Htext Hone. apply groupText_Some. right.
    split_and!; [done|done| |simpl; lia|simpl; lia].
    change (indentation JNaN) with EmptyString.
    change (EmptyString +:+ ?x) with x. by rewrite join_split_id.
  - intros Hg. apply groupText_None. split; [intros [= ->]; lia|].
    left. simpl. by destruct (Z.leb_spec 0 g); [lia|].
  - intros negative. apply groupText_None. split; [done|]. by left.
  - intros Hg pad size. split.
    + intros [Hsep Hfit].
      assert (groupText kMaxLength text (JInt g)
              = Some (pad +:+ join (String newline pad) (split newline text)))
        as Hr.
      { apply groupText_Some. right.
        split_and!; [intros [= ->]; lia| |done|done|done].
        simpl. by destruct (Z.leb_spec 0 g); [|lia]. }
      eexists. split; [exact Hr|].
      assert (Hpad : Z.of_nat (String.length pad) = 2 * g)
        by (unfold pad; rewrite repeat_spaces_length; lia).
      split_and!; [done| |].
      * rewrite length_grouped, Hpad. done.
      * pose proof (split_pieces text) as Hpieces.
        destruct (split newline text) as [|h t] eqn:E;
          [by apply split_nonempty in E|].
        rewrite split_app_single_line by apply repeat_spaces_single_line.
        rewrite split_join_pad; [done|apply repeat_spaces_single_line|done].
    + intros Hbad. apply groupText_None. split; [intros [= ->]; lia|].
      right. exact Hbad.
Qed.

(** ** The terminal object: what it sends *)

Section terminal_facts.

Import Terminal.

(** One call: at most one request, numbered with the counter, which then
    advances by one; the group level stays at 0 or above. *)
Lemma call_step now c st st' sents :
  call now c st = (st', sents) →
  0 <= groupLevel st →
  0 <= groupLevel st' ∧
  count st' = count st + Z.of_nat (length sents) ∧
  sent_c <$> sents = seqZ (count st) (Z.of_nat (length sents)) ∧
  Forall (λ x, sent_t x = now ∧ sent_g x = groupLevel st) sents.
Proof.
  intros Hcall Hg.
  assert (Hsend : ∀ type message st0 st1 out,
    send now type message st0 = (st1, out) →
    groupLevel st1 = groupLevel st0 ∧
    count st1 = count st0 + Z.of_nat (length out) ∧
    sent_c <$> out = seqZ (count st0) (Z.of_nat (length out)) ∧
    Forall (λ x, sent_t x = now ∧ sent_g x = groupLevel st0) out).
  { intros type message st0 st1 out [= <- <-]. simpl.
    split_and!; [done|done|done|by repeat constructor]. }
  destruct c; simpl in Hcall;
    try (apply Hsend in Hcall as (Hgl & ? & ? & ?); simpl in *;
         split_and!; [lia|done|done|done]).
  - destruct assertion.
    + injection Hcall as <- <-. simpl. split_and!; [done|lia|done|constructor].
    + apply Hsend in Hcall as (Hgl & ? & ? & ?). split_and!; [lia|done|done|done].
  - injection Hcall as <- <-. simpl. split_and!; [lia|lia|done|constructor].
  - injection Hcall as <- <-. simpl. split_and!; [lia|lia|done|constructor].
  - destruct (decide (groupLevel st = 0)); injection Hcall as <- <-; simpl;
      (split_and!; [lia|lia|done|constructor]).
Qed.

Lemma run_steps calls st st' sents :
  run calls st = (st', sents) →
  0 <= groupLevel st →
  0 <= groupLevel st' ∧
  count st' = count st + Z.of_nat (length sents) ∧
  sent_c <$> sents = seqZ (count st) (Z.of_nat (length sents)) ∧
  Forall (λ x, 0 <= sent_g x) sents.
Proof.
  revert st st' sents. induction calls as [|[now c] calls IH];
    intros st st' sents Hrun Hg.
  - injection Hrun as <- <-. simpl. split_and!; [done|lia|done|constructor].
  - simpl in Hrun.
    destruct (call now c st) as [st1 sent1] eqn:Hcall.
    destruct (run calls st1) as [st2 sent2] eqn:Hrest.
    injection Hrun as <- <-.
    apply call_step in Hcall as (Hg1 & Hc1 & Hs1 & Hall1); [|done].
    apply IH in Hrest as (Hg2 & Hc2 & Hs2 & Hall2); [|done].
    rewrite length_app, fmap_app, Hs1, Hs2, Hc1.
    split_and!; [done|lia| |].
    + rewrite Nat2Z.inj_add. symmetry. apply seqZ_app; lia.
    + apply Forall_app. split; [|done].
      eapply Forall_impl; [exact Hall1|]. intros x [_ ->]. done.
Qed.

(** The counter of a label follows the history of its calls. *)
Lemma call_counters now c st l :
  default 0 (counters (fst (call now c st)) !! l)
  = counted l [c] (default 0 (counters st !! l)).
Proof.
  destruct c; simpl; try done.
  - by destruct assertion.
  - by destruct (decide (groupLevel st = 0)).
  - destruct (decide (label_or_default label = l)) as [->|Hne].
    + by rewrite lookup_insert_eq.
    + by rewrite lookup_insert_ne.
  - destruct (decide (label_or_default label = l)) as [->|Hne].
    + by rewrite lookup_insert_eq.
    + by rewrite lookup_insert_ne.
Qed.

Lemma counted_app l calls1 calls2 acc :
  counted l (calls1 ++ calls2) acc = counted l calls2 (counted l calls1 acc).
Proof.
  revert acc. induction calls1 as [|c calls1 IH]; intros acc; [done|].
  destruct c; simpl; apply IH.
Qed.

Lemma run_counters calls st l :
  default 0 (counters (fst (run calls st)) !! l)
  = counted l (snd <$> calls) (default 0 (counters st !! l)).
Proof.
  revert st. induction calls as [|[now c] calls IH]; intros st; [done|].
  change (snd <$> (now, c) :: calls) with ([c] ++ (snd <$> calls)).
  rewrite counted_app, <- (call_counters now). cbn [run].
  destruct (call now c st) as [st1 sent1]. specialize (IH st1).
  by destruct (run calls st1) as [st2 sent2].
Qed.

Lemma counted_nonneg l calls acc : 0 <= acc → 0 <= counted l calls acc.
Proof.
  revert acc. induction calls as [|c calls IH]; intros acc Hacc; [done|].
  destruct c; simpl; try (by apply IH);
    destruct (decide _); apply IH; lia.
Qed.

End terminal_facts.

(** X14. The requests of a terminal object carry the numbers 0, 1, 2, ...
    in the order in which they are sent, one per request, whatever calls are
    made; [groupEnd] never takes the group level below 0, so no request
    carries a negative [g], and after the run the counter is the number of
    requests sent. *)
Theorem terminal_numbers_its_requests (calls : list (Z * Call)) :
  let st := fst (Terminal.run calls Terminal.init) in
  let sents := snd (Terminal.run calls Terminal.init) in
  sent_c <$> sents = seqZ 0 (Z.of_nat (length sents)) ∧
  Forall (λ x, 0 <= sent_g x) sents ∧
  Terminal.count st = Z.of_nat (length sents) ∧
  0 <= Terminal.groupLevel st ∧
  (length sents <= length calls)%nat.
Proof.
  intros st sents.
  destruct (Terminal.run calls Terminal.init) as [st' sents'] eqn:Hrun.
  simpl in st, sents. subst st sents.
  pose proof (run_steps _ _ _ _ Hrun (Z.le_refl 0)) as (Hg & Hc & Hs & Hall).
  simpl in Hc. split_and!; [done|done|lia|done|].
  clear -Hrun. revert st' sents' Hrun. generalize Terminal.init.
  induction calls as [|[now c] calls IH]; intros st st' sents' Hrun.
  - by injection Hrun as <- <-.
  - simpl in Hrun.
    destruct (Terminal.call now c st) as [st1 sent1] eqn:Hcall.
    destruct (Terminal.run calls st1) as [st2 sent2] eqn:Hrest.
    injection Hrun as <- <-. apply IH in Hrest.
    assert (length sent1 <= 1)%nat.
    { destruct c; simpl in Hcall;
        repeat case_match; injection Hcall as <- <-; simpl; lia. }
    rewrite length_app. simpl. lia.
Qed.

(** X15. [count(label)] reports, for its label, one more than the number of
    [count] calls for that label since the last [countReset] for it (since
    the start when there was none); an absent or empty label stands for
    [default].  The report is the message [label: n] of method [log]. *)
Theorem count_reports_calls_since_reset (calls : list (Z * Call))
    (label : option string) (now : Z) :
  let l := Terminal.label_or_default label in
  let st := fst (Terminal.run calls Terminal.init) in
  let n := counted l (snd <$> calls) 0 in
  0 <= n ∧
  default 0 (Terminal.counters st !! l) = n ∧
  snd (Terminal.call now (CCount label) st)
  = [mkSent "log" now (Terminal.count st) (Terminal.groupLevel st)
       (Some (l +:+ ": " +:+ Number_toString (n + 1)))] ∧
  Terminal.counters (fst (Terminal.call now (CCount label) st)) !! l
  = Some (n + 1) ∧
  (label = None ∨ label = Some EmptyString → l = "default"%string).
Proof.
  intros l st n.
  assert (Hn : default 0 (Terminal.counters st !! l) = n).
  { unfold st, n. by rewrite run_counters. }
  split_and!.
  - by apply counted_nonneg.
  - done.
  - simpl. fold l. rewrite Hn.
    destruct (decide (l +:+ ": " +:+ Number_toString (n + 1) = EmptyString))
      as [Hempty|_]; [|done].
    destruct l; discriminate Hempty.
  - simpl. fold l. by rewrite lookup_insert_eq, Hn.
  - by intros [->| ->].
Qed.

(** ** From the terminal object to the store: the numbers of a request *)

Section number_round_trip.

Lemma math_int_snoc ds d : math_int 10 (ds ++ [d]) = math_int 10 ds * 10 + d.
Proof. unfold math_int. by rewrite foldl_snoc. Qed.

Lemma digits_fuel_spec fuel n acc :
  0 <= n < 2 ^ Z.of_nat (S fuel) →
  ∃ ds, digits_fuel fuel n acc = ds ++ acc ∧ ds ≠ [] ∧
        Forall (λ d, 0 <= d < 10) ds ∧ math_int 10 ds = n.
Proof.
  revert n acc. induction fuel as [|fuel IH]; intros n acc Hn.
  - exists [n]. change (2 ^ Z.of_nat 1) with 2 in Hn.
    split_and!; [done|done| |done]. repeat constructor; lia.
  - cbn [digits_fuel]. destruct (Z.ltb_spec n 10) as [Hlt|Hge].
    + exists [n]. split_and!; [done|done| |done]. repeat constructor; lia.
    + destruct (IH (n / 10) (n mod 10 :: acc)) as (ds & Hds & Hne & Hall & Hval).
      { split; [apply Z.div_pos; lia|].
        apply Z.div_lt_upper_bound; [lia|].
        rewrite (Nat2Z.inj_succ (S fuel)), Z.pow_succ_r in Hn by lia. lia. }
      exists (ds ++ [n mod 10]). split_and!.
      * by rewrite Hds, <- app_assoc.
      * by destruct ds.
      * apply Forall_app. split; [done|].
        repeat constructor; apply Z.mod_pos_bound; lia.
      * rewrite math_int_snoc, Hval.
        pose proof (Z.div_mod n 10). lia.
Qed.

Lemma digits_spec n :
  0 <= n →
  digits n ≠ [] ∧ Forall (λ d, 0 <= d < 10) (digits n) ∧
  math_int 10 (digits n) = n.
Proof.
  intros Hn. unfold digits.
  destruct (digits_fuel_spec (Z.to_nat (Z.log2 n)) n []) as (ds & -> & ? & ? & ?).
  - split; [done|].
    rewrite Nat2Z.inj_succ, Z2Nat.id by apply Z.log2_nonneg.
    destruct (decide (n = 0)) as [->|]; [done|].
    apply Z.log2_spec. lia.
  - by rewrite app_nil_r.
Qed.

(** [parseInt] reads back what a template literal wrote. *)
Lemma parseInt_Number_toString n :
  0 <= n < 2 ^ 53 → parseInt (Number_toString n) = JInt n.
Proof.
  intros [Hn Hsafe]. unfold Number_toString.
  destruct (Z.ltb_spec n 0); [lia|].
  destruct (digits_spec n Hn) as (Hne & Hall & Hval).
  rewrite <- (append_empty_r (decimal (digits n))).
  rewrite parseInt_decimal by done. rewrite Hval.
  apply to_double_safe. lia.
Qed.

End number_round_trip.

(** X16. The numbers of a request survive the way to the store: for a
    request built by [send] with a time, a counter and a group level that
    are not negative and below 2^53, the integers that a double holds
    exactly, the middleware decodes exactly these three numbers.  If the
    method is a level method, the request raises only for a string that is
    longer than the engine allows: the message with its newlines indented
    or, for a group level other than 0, the pad after a newline or the
    message with one pad for each of its lines.  When it is answered, the
    event stored, if one is, carries the numbers as [timestamp], [count]
    and [groupLevel], under the stored name of the level. *)
Theorem sent_numbers_reach_the_store (JSON_parse_ok : string → bool)
    (kMaxLength : N) (relay : Relay) (sent : Sent)
    (rest : list (string * string)) :
  0 <= sent_t sent < 2 ^ 53 →
  0 <= sent_c sent < 2 ^ 53 →
  0 <= sent_g sent < 2 ^ 53 →
  let req := request_of sent rest in
  let msg := decodeMessage (searchParams req) in
  decodeNumber "t" (searchParams req) = JInt (sent_t sent) ∧
  decodeNumber "c" (searchParams req) = JInt (sent_c sent) ∧
  decodeNumber "g" (searchParams req) = JInt (sent_g sent) ∧
  (∀ l, get (sent_type sent) methods = Some (MLevel l) →
     (handle JSON_parse_ok kMaxLength relay req = Threw ↔
      Z.of_N kMaxLength < Z.of_nat (String.length msg) ∨
      (sent_g sent ≠ 0 ∧
       (Z.of_N kMaxLength < 2 * sent_g sent + 1 ∨
        Z.of_N kMaxLength
          < Z.of_nat (String.length msg) + 2 * sent_g sent * lines msg))) ∧
     (∀ relay' added d ev,
        handle JSON_parse_ok kMaxLength relay req = Ended relay' added d →
        added = Some ev →
        method ev = stored_level l ∧
        timestamp ev = JInt (sent_t sent) ∧
        count ev = JInt (sent_c sent) ∧
        groupLevel ev = JInt (sent_g sent))).
Proof.
  intros Ht Hc Hg req msg.
  assert (Hdt : decodeNumber "t" (searchParams req) = JInt (sent_t sent)).
  { unfold decodeNumber.
    change (get "t" (searchParams req)) with (Some (Number_toString (sent_t sent))).
    by apply parseInt_Number_toString. }
  assert (Hdc : decodeNumber "c" (searchParams req) = JInt (sent_c sent)).
  { unfold decodeNumber.
    change (get "c" (searchParams req)) with (Some (Number_toString (sent_c sent))).
    by apply parseInt_Number_toString. }
  assert (Hdg : decodeNumber "g" (searchParams req) = JInt (sent_g sent)).
  { unfold decodeNumber.
    change (get "g" (searchParams req)) with (Some (Number_toString (sent_g sent))).
    by apply parseInt_Number_toString. }
  split_and!; [done|done|done|].
  intros l Hl. split.
  - rewrite handle_Threw. fold msg. rewrite Hdg.
    change (pathname req) with (String "/" (sent_type sent)).
    assert (Hv : valid_count (JInt (sent_g sent)) = true)
      by (simpl; apply Z.leb_le; lia).
    change (indent_size (JInt (sent_g sent))) with (2 * sent_g sent).
    split.
    + intros [?|(name & m & [= <-] & Hm & Hcase)]; [by left|].
      rewrite Hl in Hm. injection Hm as <-.
      destruct Hcase as [[? _]|(l' & _ & Hne & Hbad)]; [done|]. right.
      split; [by intros Heq; rewrite Heq in Hne|].
      destruct Hbad as [?|?]; [congruence|done].
    + intros [?|[Hne Hbad]]; [by left|]. right.
      exists (sent_type sent), (MLevel l). split_and!; [done|done|].
      right. exists l. split_and!; [done|by intros [= ?]|by right].
  - intros relay' added d ev H ->.
    apply handle_added in H as (name & l' & s & Hpath & Hm & _ & -> & _ & _).
    change (pathname req) with (String "/" (sent_type sent)) in Hpath.
    injection Hpath as <-.
    rewrite Hl in Hm. injection Hm as <-.
    split_and!; [done | exact Hdt | exact Hdc | exact Hdg].
Qed.

(** ** Where the terminal object writes *)

(** X17. The terminal object sends to the relay unless [output] asks for
    the console and not for the terminal: without [output], with an empty
    array or with the terminal alone it is the terminal object, with both it
    is an object that calls both, and only with the console alone it is the
    console. *)
Theorem defineOutput_targets (output : LogsOutput) :
  let asks o :=
    match output with
    | OutputUndefined => False
    | OutputOne o' => o' = o
    | OutputArray os => o ∈ os
    end in
  (defineOutput output = TheConsole ↔ asks OutConsole ∧ ¬ asks OutTerminal) ∧
  (defineOutput output = Multicast ↔ asks OutConsole ∧ asks OutTerminal) ∧
  (defineOutput output = TheTerminal ↔ ¬ asks OutConsole) ∧
  defineOutput (OutputArray []) = TheTerminal.
Proof.
  intros asks. unfold defineOutput, outputToConsole, outputToTerminal, asks.
  destruct output as [|o|os]; simpl.
  - intuition congruence.
  - destruct o; simpl; intuition congruence.
  - repeat case_bool_decide; simpl; intuition congruence.
Qed.

(** ** The statements on the relay at concrete requests *)

Lemma relay_stored_events_witness :
  let mcp := McpObject (mkMcpConfig (Some 2) (Some [error; warn]) None) in
  let reqs :=
    [ mkRequest "/warn" [("t", "10"); ("c", "0"); ("g", "1"); ("m", "w")];
      mkRequest "/log" [("t", "11"); ("c", "1"); ("g", "0"); ("m", "l")];
      mkRequest "/assert" [("t", "12"); ("c", "2"); ("g", "0"); ("m", "a")];
      mkRequest "/error" [("t", "13"); ("c", "3"); ("g", "-1"); ("m", "e")] ]%string in
  let e1 := mkStoredLog warn "w" (JInt 10) (JInt 0) (JInt 1) in
  let e2 := mkStoredLog error "a" (JInt 12) (JInt 2) (JInt 0) in
  let s := LogStore.mk [e1; e2] 2 in
  logStore (serve (λ _, true) 536870888 reqs (configureServer true mcp))
    = Some s ∧
  e2 ∈ LogStore.getAll s ∧
  method e2 ∈ mcpLevels (configureServer true mcp) ∧
  not_negative (groupLevel e2) = true.
Proof.
  intros mcp reqs e1 e2 s.
  assert (Hs : logStore (serve (λ _, true) 536870888 reqs
                           (configureServer true mcp)) = Some s)
    by (by vm_compute).
  assert (Hin : e2 ∈ LogStore.getAll s) by (by repeat constructor).
  destruct (relay_stored_events (λ _, true) 536870888 true mcp reqs s e2 Hs Hin)
    as (Hlevel & _ & Hg & _).
  split_and!; [exact Hs | exact Hin | exact Hlevel | exact Hg].
Defined.

Lemma relay_query_rendering_witness :
  let reqs :=
    [ mkRequest "/warn" [("t", "10"); ("c", "0"); ("g", "0"); ("m", "w")];
      mkRequest "/error" [("t", "soon"); ("c", "1"); ("g", "0"); ("m", "e")] ]%string in
  let e1 := mkStoredLog warn "w" (JInt 10) (JInt 0) (JInt 0) in
  let e2 := mkStoredLog error "e" JNaN (JInt 1) (JInt 0) in
  let s := LogStore.mk [e1; e2] 1000 in
  let iso := λ _ : Z, "1970-01-01T00:00:00.000Z"%string in
  logStore (serve (λ _, true) 536870888 reqs
              (configureServer true (McpBool true))) = Some s ∧
  get_console_logs_tool iso 536870888 (Some 1) (Some MCP.LAll) s = None ∧
  is_Some (get_console_logs_tool iso 536870888 (Some 5)
             (Some (MCP.LOnly warn)) s) ∧
  get_console_logs_tool iso 40 (Some 5) (Some (MCP.LOnly warn)) s = None.
Proof.
  intros reqs e1 e2 s iso.
  assert (Hs : logStore (serve (λ _, true) 536870888 reqs
                           (configureServer true (McpBool true)))
               = Some s) by (by vm_compute).
  split_and!; [exact Hs | by vm_compute | | by vm_compute].
  apply (proj1 (relay_query_rendering (λ _, true) 536870888 iso true
                  (McpBool true) reqs s (Some 5) (Some (MCP.LOnly warn)) Hs)).
  split; [by repeat constructor | by vm_compute].
Defined.

Lemma stored_exactly_when_witness :
  let relay := configureServer true
    (McpObject (mkMcpConfig None (Some [assert; warn]) None)) in
  let req := mkRequest "/assert"
    [("t", "10"); ("c", "0"); ("g", "0"); ("m", "Assertion failed: x")]%string in
  pathname req = String "/" "assert" ∧
  get "assert" methods = Some (MLevel assert) ∧
  handle (λ _, true) 536870888 relay req = Ended relay None (Some (JInt 10, JInt 0)) ∧
  ¬ (is_Some (logStore relay) ∧
     ∃ l, MLevel assert = MLevel l ∧ stored_level l ∈ mcpLevels relay).
Proof.
  intros relay req.
  assert (H : handle (λ _, true) 536870888 relay req
              = Ended relay None (Some (JInt 10, JInt 0))) by (by vm_compute).
  destruct (stored_exactly_when (λ _, true) 536870888 relay relay req "assert"
              (MLevel assert) None _ eq_refl eq_refl H) as (Hiff & _ & _).
  split; [reflexivity|]. split; [reflexivity|]. split; [exact H|].
  intros Hyes. apply Hiff in Hyes. by destruct Hyes.
Defined.

Lemma silent_only_when_stored_witness :
  let relay := configureServer true
    (McpObject (mkMcpConfig None (Some [error]) (Some true))) in
  let req1 := mkRequest "/error"
    [("t", "10"); ("c", "0"); ("g", "0"); ("m", "e")]%string in
  let req2 := mkRequest "/log"
    [("t", "11"); ("c", "1"); ("g", "0"); ("m", "l")]%string in
  let ev := mkStoredLog error "e" (JInt 10) (JInt 0) (JInt 0) in
  handle (λ _, true) 536870888 relay req1
    = Ended (mkRelay (Some (LogStore.mk [ev] 1000)) [error] true) (Some ev) None ∧
  handle (λ _, true) 536870888 relay req2 = Ended relay None (Some (JInt 11, JInt 1)) ∧
  (mcpSilent relay = true ∧ is_Some (Some ev)).
Proof.
  intros relay req1 req2 ev.
  assert (H1 : handle (λ _, true) 536870888 relay req1
               = Ended (mkRelay (Some (LogStore.mk [ev] 1000)) [error] true)
                       (Some ev) None) by (by vm_compute).
  assert (H2 : handle (λ _, true) 536870888 relay req2
               = Ended relay None (Some (JInt 11, JInt 1))) by (by vm_compute).
  destruct (silent_only_when_stored (λ _, true) 536870888 relay _ req1 "error"
              (MLevel error) _ _ eq_refl eq_refl H1) as (_ & Hiff & _).
  split; [exact H1|]. split; [exact H2 | exact (proj1 Hiff eq_refl)].
Defined.

Lemma sent_numbers_reach_the_store_witness :
  let sent := mkSent "warn" 1700000000000 41 2 (Some "careful"%string) in
  let req := request_of sent [("m", "careful")]%string in
  0 <= sent_t sent < 2 ^ 53 ∧
  pathname req = "/warn"%string ∧
  decodeNumber "t" (searchParams req) = JInt 1700000000000 ∧
  decodeNumber "c" (searchParams req) = JInt 41 ∧
  decodeNumber "g" (searchParams req) = JInt 2 ∧
  handle (λ _, true) 10 (configureServer true (McpBool true)) req = Threw.
Proof.
  intros sent req.
  assert (Ht : 0 <= sent_t sent < 2 ^ 53) by (simpl; lia).
  assert (Hc : 0 <= sent_c sent < 2 ^ 53) by (simpl; lia).
  assert (Hg : 0 <= sent_g sent < 2 ^ 53) by (simpl; lia).
  destruct (sent_numbers_reach_the_store (λ _, true) 10
              (configureServer true (McpBool true)) sent [("m", "careful")]%string
              Ht Hc Hg) as (Hdt & Hdc & Hdg & Hlevel).
  split; [exact Ht|]. split; [reflexivity|]. split; [exact Hdt|].
  split; [exact Hdc|]. split; [exact Hdg|].
  apply (proj1 (Hlevel warn eq_refl)). right.
  split; [done | right; by vm_compute].
Defined.

(** ** The store of the relay keeps the order of arrival *)

Section arrival_order.

Variable JSON_parse_ok : string → bool.
Variable kMaxLength : N.

Lemma serve_keeps_suffix reqs relay s pre :
  logStore relay = Some s →
  LogStore.logs s = drop (length pre - Z.to_nat (LogStore.maxSize s)) pre →
  ∃ s', logStore (serve JSON_parse_ok kMaxLength reqs relay) = Some s' ∧
        LogStore.maxSize s' = LogStore.maxSize s ∧
        LogStore.logs s'
        = drop (length (pre ++ added_events JSON_parse_ok kMaxLength reqs relay)
                - Z.to_nat (LogStore.maxSize s))
               (pre ++ added_events JSON_parse_ok kMaxLength reqs relay).
Proof.
  revert relay s pre. induction reqs as [|req reqs IH]; intros relay s pre Hs Hl.
  - exists s. simpl. by rewrite app_nil_r.
  - simpl. destruct (handle JSON_parse_ok kMaxLength relay req) as [|r' added d] eqn:H.
    + by apply IH.
    + destruct added as [ev|]; simpl.
      * apply handle_added in H as (? & ? & s0 & _ & _ & Hs0 & _ & _ & ->).
        rewrite Hs in Hs0. injection Hs0 as <-.
        destruct (IH (mkRelay (Some (LogStore.add ev s)) (mcpLevels relay)
                        (mcpSilent relay)) (LogStore.add ev s) (pre ++ [ev])
                    eq_refl) as (s' & Hs' & Hm & Hl').
        { rewrite maxSize_add. by apply add_keeps_suffix. }
        exists s'. rewrite maxSize_add in Hm, Hl'.
        split_and!; [done|done|]. by rewrite <- app_assoc in Hl'.
      * apply handle_not_added in H as ->. by apply IH.
Qed.

(** X18. The store of the relay is in order of arrival: after any requests
    it holds the last [maxSize] of the events the middleware stored, in the
    order in which their requests were served, whatever their timestamps. *)
Theorem relay_store_in_arrival_order (imported : bool) (mcp : McpOption)
    (reqs : list Request) (s : LogStore.t) :
  logStore (serve JSON_parse_ok kMaxLength reqs (configureServer imported mcp))
    = Some s →
  let evs :=
    added_events JSON_parse_ok kMaxLength reqs (configureServer imported mcp) in
  LogStore.getAll s = drop (length evs - Z.to_nat (LogStore.maxSize s)) evs ∧
  LogStore.getAll s `suffix_of` evs.
Proof.
  intros Hs evs.
  destruct (logStore (configureServer imported mcp)) as [s0|] eqn:Hs0.
  - destruct (serve_keeps_suffix reqs (configureServer imported mcp) s0 [] Hs0)
      as (s' & Hs' & Hm & Hl).
    { unfold configureServer in Hs0. simpl in Hs0.
      destruct (match mcp with McpUndefined => false | McpBool b => b
                | McpObject _ => true end), imported; try done.
      injection Hs0 as <-. simpl. by rewrite ?drop_nil. }
    rewrite Hs in Hs'. injection Hs' as <-.
    simpl in Hl. fold evs in Hl. rewrite <- Hm in Hl.
    unfold LogStore.getAll. rewrite Hl. split; [done|apply suffix_drop].
  - exfalso.
    pose proof (serve_inv JSON_parse_ok kMaxLength _ _ _ _ reqs _
                  (configureServer_inv imported mcp)) as (_ & _ & Hstore).
    pose proof (configureServer_inv imported mcp) as (_ & _ & Hstore0).
    rewrite Hs in Hstore. rewrite Hs0 in Hstore0.
    destruct Hstore as (? & _). congruence.
Qed.

End arrival_order.

Lemma relay_store_in_arrival_order_witness :
  let mcp := McpObject (mkMcpConfig (Some 2) None None) in
  let reqs :=
    [ mkRequest "/log" [("t", "300"); ("c", "0"); ("g", "0"); ("m", "a")];
      mkRequest "/log" [("t", "100"); ("c", "1"); ("g", "0"); ("m", "b")];
      mkRequest "/log" [("t", "200"); ("c", "2"); ("g", "0"); ("m", "c")] ]%string in
  let e2 := mkStoredLog log "b" (JInt 100) (JInt 1) (JInt 0) in
  let e3 := mkStoredLog log "c" (JInt 200) (JInt 2) (JInt 0) in
  let s := LogStore.mk [e2; e3] 2 in
  logStore (serve (λ _, true) 536870888 reqs (configureServer true mcp))
    = Some s ∧
  LogStore.getAll s
    `suffix_of` added_events (λ _, true) 536870888 reqs
                  (configureServer true mcp).
Proof.
  intros mcp reqs e2 e3 s.
  assert (Hs : logStore (serve (λ _, true) 536870888 reqs
                           (configureServer true mcp)) = Some s)
    by (by vm_compute).
  split; [exact Hs|].
  exact (proj2 (relay_store_in_arrival_order (λ _, true) 536870888 true mcp
                  reqs s Hs)).
Defined.

(** ** The rewriting of the message loses nothing *)

Lemma indent_newlines_empty s : indent_newlines s = EmptyString → s = EmptyString.
Proof. destruct s as [|c r]; [done|]. simpl. by destruct (Ascii.eqb c newline). Qed.

(** X19. The rewriting of the [m] parameter by the middleware is
    injective: two requests whose messages are stored as the same text had
    the same [m] parameter. *)
Theorem decodeMessage_injective (params1 params2 : list (string * string)) :
  decodeMessage params1 = decodeMessage params2 →
  default EmptyString (get "m" params1) = default EmptyString (get "m" params2).
Proof.
  unfold decodeMessage. rewrite !join_split_indent.
  generalize (default EmptyString (get "m" params1)).
  generalize (default EmptyString (get "m" params2)).
  intros b a. revert b. induction a as [|c a IH]; intros b Heq.
  - symmetry. apply indent_newlines_empty. by rewrite <- Heq.
  - destruct b as [|d b].
    { by apply indent_newlines_empty in Heq. }
    simpl in Heq.
    destruct (Ascii.eqb_spec c newline) as [->|Hc],
             (Ascii.eqb_spec d newline) as [->|Hd].
    + injection Heq as Heq. by rewrite (IH b Heq).
    + injection Heq as Hcd _. congruence.
    + injection Heq as Hcd _. congruence.
    + injection Heq as -> Heq. by rewrite (IH b Heq).
Qed.

Lemma decodeMessage_injective_witness :
  default EmptyString (get "m" [("m", "a b")]%string)
  = default EmptyString (get "m" [("t", "1"); ("m", "a b")]%string).
Proof.
  apply (decodeMessage_injective [("m", "a b")]%string
           [("t", "1"); ("m", "a b")]%string).
  reflexivity.
Defined.

(** ** The statistics *)

Lemma length_filter_levels (l : list StoredLog) :
  length l
  = (length (filter (λ e, method e = error ∨ method e = assert) l)
     + length (filter (λ e, method e = warn) l)
     + length (filter (λ e, method e = info) l)
     + length (filter (λ e, method e = debug) l)
     + length (filter (λ e, method e = log) l))%nat.
Proof.
  induction l as [|e l IH]; [done|].
  rewrite !filter_cons. simpl length at 1. rewrite IH.
  destruct (method e); repeat case_decide; simpl;
    try lia; try done; exfalso; intuition congruence.
Qed.

(** X20. In the answer of [get-console-stats] the five counts add up to
    [total]: every stored event is counted once, an [assert] event among the
    errors. *)
Theorem stats_counts_add_up (s : LogStore.t) :
  let stats := MCP.get_console_stats s in
  Stats.total stats
  = Stats.errors stats + Stats.warnings stats + Stats.info stats
    + Stats.debug stats + Stats.log stats ∧
  Stats.errors stats
  = Z.of_nat (length (LogStore.getByLevel error s))
    + Z.of_nat (length (LogStore.getByLevel assert s)).
Proof.
  unfold MCP.get_console_stats, LogStore.getAll, LogStore.getErrors,
    LogStore.getByLevel. simpl. split.
  - rewrite (length_filter_levels (LogStore.logs s)) at 1. lia.
  - induction (LogStore.logs s) as [|e l IH]; [done|].
    rewrite !filter_cons.
    destruct (method e); repeat case_decide; simpl in *;
      try lia; exfalso; intuition congruence.
Qed.
